(** * sequelize-external-methods: the method loaders of [lib/index.js]

    A shallow embedding of [overrideWarning], [loadGetters], [loadSetters],
    [loadPrototypes], [loadStatics] and [loadExternalMethods], over a small
    model of the JavaScript objects they read and write.

    Modelling choices.
    - A method definition is a JavaScript value compared by identity
      ([SameValue]): a function reference, or a string as the test-suites use.
    - An object is its own data properties, each with the [[Writable]],
      [[Enumerable]] and [[Configurable]] attributes, and a read-only view of
      the data properties it inherits through its prototype chain.  Objects
      are extensible, accessor properties are left out.
    - The Model keeps its regions in separate fields: its own namespace
      (statics), [Model.prototype], [Model.prototype._customGetters] and
      [_customSetters] with their counters, and the two option objects
      [Model.options.getterMethods] and [Model.options.setterMethods].
      Method names that are the names of these fields themselves
      ([prototype], [options], [_customGetters], ...) are outside the model.
    - The module is a CommonJS script without a strict-mode directive, so an
      assignment to a read-only property is ignored without an exception.
    - The loaders mutate the Model and write to the console: they are
      computations over a state holding both, which complete normally or
      abruptly with a thrown [TypeError]. *)

From stdpp Require Import gmap strings list fin_maps.

Open Scope string_scope.
Open Scope list_scope.

(** ** Values and objects *)

Inductive value : Type :=
  | Fn (ref : nat)
  | Str (s : string).

#[global] Instance value_eq_dec : EqDecision value.
Proof. solve_decision. Defined.

(** A data property: [[Value]], [[Writable]], [[Enumerable]], [[Configurable]]. *)
Record property : Type := Property {
  p_value : value;
  writable : bool;
  enumerable : bool;
  configurable : bool
}.

#[global] Instance property_eq_dec : EqDecision property.
Proof. solve_decision. Defined.

Definition with_value (p : property) (v : value) : property :=
  Property v (writable p) (enumerable p) (configurable p).

(** The property made by an assignment or an object literal. *)
Definition assigned (v : value) : property := Property v true true true.

(** The property made by [Object.defineProperty(o, k, { value: v })] when [k]
    is new: the absent attributes default to [false]. *)
Definition defined (v : value) : property := Property v false false false.

Record object : Type := Object {
  own : gmap string property;
  inherited : gmap string property
}.

(** [k in o]: own properties first, then the prototype chain. *)
Definition HasProperty (o : object) (k : string) : bool :=
  bool_decide (is_Some (own o !! k)) || bool_decide (is_Some (inherited o !! k)).

(** [o[k]], [None] standing for [undefined]. *)
Definition Get (o : object) (k : string) : option value :=
  match own o !! k with
  | Some p => Some (p_value p)
  | None => p_value <$> inherited o !! k
  end.

(** [o[k] = v] in sloppy mode (OrdinarySet on data properties): a read-only
    property, own or inherited, makes the assignment a silent no-op; an own
    writable property keeps its attributes; otherwise a new own property is
    created. *)
Definition Set_ (o : object) (k : string) (v : value) : object :=
  match own o !! k with
  | Some p =>
      if writable p then Object (<[k := with_value p v]> (own o)) (inherited o)
      else o
  | None =>
      match inherited o !! k with
      | Some p =>
          if writable p then Object (<[k := assigned v]> (own o)) (inherited o)
          else o
      | None => Object (<[k := assigned v]> (own o)) (inherited o)
      end
  end.

(** [o.[[DefineOwnProperty]](k, { value: v })]: [None] when the definition is
    rejected, which is when the own property is neither configurable nor
    writable and holds a different value. *)
Definition DefineOwnProperty (o : object) (k : string) (v : value) : option object :=
  match own o !! k with
  | None => Some (Object (<[k := defined v]> (own o)) (inherited o))
  | Some p =>
      if configurable p || writable p
      then Some (Object (<[k := with_value p v]> (own o)) (inherited o))
      else if decide (p_value p = v) then Some o else None
  end.

(** A mapping argument [{ name: method, ... }], as [Object.entries] lists it;
    an object lists each own key once. *)
Definition mapping : Type := list (string * value).

Definition Object_keys (m : mapping) : list string := m.*1.
Definition Object_entries (m : mapping) : list (string * value) := m.

(** [{ ...old, ...new }] on the contents of two plain objects. *)
Definition spread (old : gmap string value) (new : mapping) : gmap string value :=
  foldl (fun acc kv => <[kv.1 := kv.2]> acc) old new.

(** ** The Model *)

Record Model : Type := mkModel {
  members : object;
  prototype : object;
  _customGetters : object;
  _customSetters : object;
  _hasCustomGetters : nat;
  _hasCustomSetters : nat;
  options_getterMethods : gmap string value;
  options_setterMethods : gmap string value
}.

Definition set_members (o : object) (M : Model) : Model :=
  mkModel o (prototype M) (_customGetters M) (_customSetters M)
    (_hasCustomGetters M) (_hasCustomSetters M)
    (options_getterMethods M) (options_setterMethods M).

Definition set_prototype (o : object) (M : Model) : Model :=
  mkModel (members M) o (_customGetters M) (_customSetters M)
    (_hasCustomGetters M) (_hasCustomSetters M)
    (options_getterMethods M) (options_setterMethods M).

Definition set_options_getterMethods (g : gmap string value) (M : Model) : Model :=
  mkModel (members M) (prototype M) (_customGetters M) (_customSetters M)
    (_hasCustomGetters M) (_hasCustomSetters M)
    g (options_setterMethods M).

Definition set_options_setterMethods (g : gmap string value) (M : Model) : Model :=
  mkModel (members M) (prototype M) (_customGetters M) (_customSetters M)
    (_hasCustomGetters M) (_hasCustomSetters M)
    (options_getterMethods M) g.

(** Modelled from the spec: [Model.refreshAttributes] belongs to Sequelize and
    is not part of this repository.  Following the loaders' documentation
    (the merged option objects become [Model.prototype._customGetters] and
    [_customSetters], and [_hasCustomGetters] and [_hasCustomSetters] count
    their entries), it rebuilds both tables as fresh plain objects from the
    option objects and recounts them. *)
Definition refreshAttributes (M : Model) : Model :=
  mkModel (members M) (prototype M)
    (Object (assigned <$> options_getterMethods M) (inherited (_customGetters M)))
    (Object (assigned <$> options_setterMethods M) (inherited (_customSetters M)))
    (size (options_getterMethods M)) (size (options_setterMethods M))
    (options_getterMethods M) (options_setterMethods M).

(** The tables hold exactly the entries of the option objects and the
    counters count them, as [refreshAttributes] computes them: the state of a
    Model defined with [getterMethods] and [setterMethods] options only, with
    no attribute-level getter or setter and nothing written into the tables
    or counters by hand. *)
Definition refreshed (M : Model) : Prop := refreshAttributes M = M.

(** ** Computations *)

Record state : Type := State {
  target : Model;
  console : list string
}.

Inductive completion : Type :=
  | Normal
  | Throw_TypeError.

Definition js : Type := state -> completion * state.

Definition skip : js := fun s => (Normal, s).

Definition seq (c1 c2 : js) : js :=
  fun s => match c1 s with
           | (Normal, s') => c2 s'
           | (Throw_TypeError, s') => (Throw_TypeError, s')
           end.

Declare Scope js_scope.
Delimit Scope js_scope with js.
Bind Scope js_scope with js.
Notation "c1 ;; c2" := (seq c1 c2)
  (at level 100, c2 at level 200, right associativity) : js_scope.
Open Scope js_scope.

Definition throw_TypeError : js := fun s => (Throw_TypeError, s).

Definition modify (f : Model -> Model) : js :=
  fun s => (Normal, State (f (target s)) (console s)).

Definition read {A : Type} (f : Model -> A) (k : A -> js) : js :=
  fun s => k (f (target s)) s.

Definition console_warn (msg : string) : js :=
  fun s => (Normal, State (target s) (console s ++ [msg])).

Definition when (b : bool) (c : js) : js := if b then c else skip.

(** [for (const x of xs) body] *)
Fixpoint for_of {A : Type} (xs : list A) (body : A -> js) : js :=
  match xs with
  | [] => skip
  | x :: xs' => body x ;; for_of xs' body
  end.

(** ** The loaders *)

Definition overrideWarning (location methodName : string) : string :=
  "Existing [" +:+ location +:+ "] method [" +:+ methodName
    +:+ "] overridden by loadExternalMethods".

Definition loadGetters (getterMethods : mapping) (warn : bool) : js :=
  for_of (Object_keys getterMethods) (fun getterName =>
    read (fun M => HasProperty (_customGetters M) getterName) (fun methodWillOverride =>
      when methodWillOverride
        (when warn (console_warn (overrideWarning "getterMethods" getterName))))) ;;
  modify (fun M =>
    set_options_getterMethods (spread (options_getterMethods M) getterMethods) M) ;;
  modify refreshAttributes.

Definition loadSetters (setterMethods : mapping) (warn : bool) : js :=
  for_of (Object_keys setterMethods) (fun setterName =>
    read (fun M => HasProperty (_customSetters M) setterName) (fun methodWillOverride =>
      when methodWillOverride
        (when warn (console_warn (overrideWarning "setterMethods" setterName))))) ;;
  modify (fun M =>
    set_options_setterMethods (spread (options_setterMethods M) setterMethods) M) ;;
  modify refreshAttributes.

(** [Object.defineProperty(Model.prototype, k, { value: v })] *)
Definition Object_defineProperty_prototype (k : string) (v : value) : js :=
  read (fun M => DefineOwnProperty (prototype M) k v) (fun r =>
    match r with
    | Some o => modify (set_prototype o)
    | None => throw_TypeError
    end).

Definition loadPrototypes (prototypeMethods : mapping) (warn : bool) : js :=
  for_of (Object_entries prototypeMethods) (fun '(prototypeName, method) =>
    read (fun M => HasProperty (prototype M) prototypeName) (fun present =>
      when present
        (when warn (console_warn (overrideWarning "prototype" prototypeName)))) ;;
    Object_defineProperty_prototype prototypeName method).

Definition loadStatics (staticMethods : mapping) (warn : bool) : js :=
  for_of (Object_entries staticMethods) (fun '(staticName, method) =>
    read (fun M => HasProperty (members M) staticName) (fun present =>
      when present
        (when warn (console_warn (overrideWarning "static" staticName)))) ;;
    modify (fun M => set_members (Set_ (members M) staticName method) M)).

(** The [methods] argument: each of the four mappings may be absent. *)
Record methods : Type := mkMethods {
  staticMethods : option mapping;
  getterMethods : option mapping;
  setterMethods : option mapping;
  prototypeMethods : option mapping
}.

Definition loadExternalMethods (ms : methods) (warn : bool) : js :=
  let staticMethods := default [] (staticMethods ms) in
  let getterMethods := default [] (getterMethods ms) in
  let setterMethods := default [] (setterMethods ms) in
  let prototypeMethods := default [] (prototypeMethods ms) in
  loadGetters getterMethods warn ;;
  loadSetters setterMethods warn ;;
  loadPrototypes prototypeMethods warn ;;
  loadStatics staticMethods warn.

(** ** Calls, regions and operations *)

(** A call on a Model, the console empty before it: how it completes, the
    Model it leaves and the warnings it wrote. *)
Definition run (c : js) (M : Model) : completion * state := c (State M []).
Definition outcome (c : js) (M : Model) : completion := (run c M).1.
Definition result (c : js) (M : Model) : Model := target (run c M).2.
Definition warnings (c : js) (M : Model) : list string := console (run c M).2.

(** The four regions of a Model, the loader of each and its location tag. *)
Inductive region : Type := Getters | Setters | InstanceMethods | Statics.

Definition region_object (r : region) (M : Model) : object :=
  match r with
  | Getters => _customGetters M
  | Setters => _customSetters M
  | InstanceMethods => prototype M
  | Statics => members M
  end.

Definition merge (r : region) : mapping -> bool -> js :=
  match r with
  | Getters => loadGetters
  | Setters => loadSetters
  | InstanceMethods => loadPrototypes
  | Statics => loadStatics
  end.

Definition location (r : region) : string :=
  match r with
  | Getters => "getterMethods"
  | Setters => "setterMethods"
  | InstanceMethods => "prototype"
  | Statics => "static"
  end.

(** The callable a region holds under a name: an entry of the region itself,
    not one seen through the prototype chain. *)
Definition holds (r : region) (M : Model) (n : string) : option value :=
  p_value <$> own (region_object r M) !! n.

(** The five operations, to state what holds of each of them. *)
Inductive operation : Type :=
  | OpGetters (m : mapping)
  | OpSetters (m : mapping)
  | OpPrototypes (m : mapping)
  | OpStatics (m : mapping)
  | OpExternalMethods (ms : methods).

Definition perform (op : operation) (warn : bool) : js :=
  match op with
  | OpGetters m => loadGetters m warn
  | OpSetters m => loadSetters m warn
  | OpPrototypes m => loadPrototypes m warn
  | OpStatics m => loadStatics m warn
  | OpExternalMethods ms => loadExternalMethods ms warn
  end.

(** A member can be assigned when no read-only property stands in the way. *)
Definition assignable (o : object) (k : string) : bool :=
  match own o !! k with
  | Some p => writable p
  | None => match inherited o !! k with
            | Some p => writable p
            | None => true
            end
  end.

(** ** What each loop computes

    The loops of the loaders as functions on the object they work on; the
    lemmas [loadGetters_run], [loadSetters_run], [loadStatics_run] and
    [loadPrototypes_run] relate the loaders to them. *)

(** The names of a list that an object already has, in order. *)
Definition present_in (o : object) (ks : list string) : list string :=
  filter (fun k => HasProperty o k = true) ks.

Fixpoint statics_after (o : object) (m : mapping) : object :=
  match m with
  | [] => o
  | (k, v) :: m' => statics_after (Set_ o k v) m'
  end.

Fixpoint statics_conflicts (o : object) (m : mapping) : list string :=
  match m with
  | [] => []
  | (k, v) :: m' =>
      (if HasProperty o k then [k] else []) ++ statics_conflicts (Set_ o k v) m'
  end.

(** The loop of [loadPrototypes] on the prototype object: completion, object
    left, and names found present, up to the first rejected definition. *)
Fixpoint prototypes_loop (o : object) (m : mapping) : completion * object * list string :=
  match m with
  | [] => (Normal, o, [])
  | (k, v) :: m' =>
      let hit := if HasProperty o k then [k] else [] in
      match DefineOwnProperty o k v with
      | Some o' =>
          let '(c, o'', hits) := prototypes_loop o' m' in (c, o'', hit ++ hits)
      | None => (Throw_TypeError, o, hit)
      end
  end.

(** The warnings written for the names found present. *)
Definition said (warn : bool) (location : string) (names : list string) : list string :=
  if warn then overrideWarning location <$> names else [].

(** ** Vocabulary of the statements *)


(** A computation taking the warn flag is blind to it when the flag decides
    only whether its warnings reach the console: completion and Model are
    the same either way, whatever the console held before. *)
Definition warn_blind (f : bool → js) : Prop :=
  ∀ M, ∃ r M' ws,
    ∀ warn c, f warn (State M c) = (r, State M' (c ++ if warn then ws else [])).





(** Merging [{ n: V1 }] and then [{ n: V2 }] into region [r], both with
    [warn = true]: no warning from the first merge, exactly the override
    warning from the second, and the region holding [V2] in the end. *)
Definition merged_twice (r : region) (M : Model) (n : string) (V1 V2 : value) : Prop :=
  warnings (merge r [(n, V1)] true) M = [] ∧
  warnings (merge r [(n, V2)] true) (result (merge r [(n, V1)] true) M)
    = [overrideWarning (location r) n] ∧
  holds r (result (merge r [(n, V2)] true) (result (merge r [(n, V1)] true) M)) n
    = Some V2.

(** ** Sample Models *)

(** The methods every plain object inherits from [Object.prototype]:
    writable, not enumerable, configurable. *)
Definition builtin (ref : nat) : property := Property (Fn ref) true false true.

Definition Object_prototype : gmap string property :=
  list_to_map [
    ("constructor", builtin 0); ("hasOwnProperty", builtin 1);
    ("isPrototypeOf", builtin 2); ("propertyIsEnumerable", builtin 3);
    ("toLocaleString", builtin 4); ("toString", builtin 5);
    ("valueOf", builtin 6) ].

(** [{}] *)
Definition plain_object : object := Object ∅ Object_prototype.

(** A Model just defined, without any method of its own: every region is
    empty, every object inherits from [Object.prototype]. *)
Definition bare_Model : Model :=
  mkModel plain_object plain_object plain_object plain_object 0 0 ∅ ∅.

(** A Model that is a class: like every function it has its own read-only
    [name], and it inherits a static [findById] from its parent class. *)
Definition class_Model : Model :=
  mkModel
    (Object {[ "name" := Property (Str "Student") false false true ]}
            (<["findById" := Property (Fn 10) true false true]> Object_prototype))
    plain_object plain_object plain_object 0 0 ∅ ∅.

(** A Model one of whose statics was installed with
    [Object.defineProperty(Model, 'findById', { value: ... })]. *)
Definition guarded_Model : Model :=
  mkModel (Object {[ "findById" := defined (Fn 10) ]} Object_prototype)
    plain_object plain_object plain_object 0 0 ∅ ∅.

(** A Model whose prototype got [prototypeName] by assignment, and which was
    defined with a getter and a setter, as the test-suite builds them. *)
Definition tested_Model : Model :=
  mkModel
    (Object {[ "staticName" := assigned (Str "existingDef") ]} Object_prototype)
    (Object {[ "prototypeName" := assigned (Str "existingDef") ]} Object_prototype)
    (Object {[ "getterName" := assigned (Str "existingDef") ]} Object_prototype)
    (Object {[ "setterName" := assigned (Str "existingDef") ]} Object_prototype)
    1 1
    {[ "getterName" := Str "existingDef" ]} {[ "setterName" := Str "existingDef" ]}.


(** Decides a closed decidable proposition by evaluation. *)
Ltac by_compute :=
  match goal with
  | |- ?P => apply (@bool_decide_unpack P _); vm_compute; exact I
  end.

(** ** More vocabulary *)

(** A property that [Object.defineProperty(o, k, { value: v })] cannot
    change: neither configurable nor writable. *)
Definition frozen (p : property) : bool := negb (configurable p || writable p).

(** The mapping [loadExternalMethods] hands to the loader of a region. *)
Definition unpacked (ms : methods) (r : region) : mapping :=
  match r with
  | Getters => default [] (getterMethods ms)
  | Setters => default [] (setterMethods ms)
  | InstanceMethods => default [] (prototypeMethods ms)
  | Statics => default [] (staticMethods ms)
  end.

(** ** The example getter [needsRefresh]

    Time values are integers of milliseconds within the range of [Date],
    where the arithmetic of JavaScript numbers is exact. *)

(** What [this.updated_at] may be when the getter runs: a [Date], with its
    time value or invalid, or a missing or [null] attribute. *)
Inductive updated_at : Type :=
  | Date (time : option Z)
  | Undefined
  | Null.

(** The number the comparison sees, [None] standing for [NaN]. *)
Definition ToNumber (u : updated_at) : option Z :=
  match u with
  | Date time => time
  | Undefined => None
  | Null => Some 0%Z
  end.

Definition thirtyDays : Z := (30 * 24 * 60 * 60 * 1000)%Z.

(** [Date.now() - thirtyDays >= this.updated_at]; a comparison with [NaN] is
    false. *)
Definition needsRefresh (Date_now : Z) (this_updated_at : updated_at) : bool :=
  match ToNumber this_updated_at with
  | Some t => (Date_now - thirtyDays >=? t)%Z
  | None => false
  end.

(** ** The models exporter of the example ([models/index.js]) *)

Fixpoint string_drop (n : nat) (s : string) : string :=
  match n, s with
  | S n', String _ s' => string_drop n' s'
  | _, _ => s
  end.

Fixpoint string_take (n : nat) (s : string) : string :=
  match n, s with
  | S n', String a s' => String a (string_take n' s')
  | _, _ => ""
  end.

(** [s.slice(-n)]: the last [n] characters, the whole string when it is
    shorter. *)
Definition slice_last (n : nat) (s : string) : string :=
  string_drop (String.length s - n) s.

Definition isDirectory (file : string) : bool :=
  negb (String.eqb (slice_last 3 file) ".js").

(** The components handed to [path.join]. *)
Definition importPath (__dirname file : string) : list string :=
  if isDirectory file then [__dirname; file; "index.js"] else [__dirname; file].

(** ** The example model ([models/google-location/index.js])

    What the module does to the Model once [sequelize.define] has returned
    it: it assigns [associate], then loads the external methods, [methods]
    being what [./methods] exports. *)
Definition GoogleLocation_module (methods : methods) (associate : value) : js :=
  modify (fun M => set_members (Set_ (members M) "associate" associate) M) ;;
  loadExternalMethods methods true.

(** * Proofs *)

(** ** What each loop computes *)

Lemma said_app warn loc l1 l2 :
  said warn loc (l1 ++ l2) = said warn loc l1 ++ said warn loc l2.
Proof. unfold said. destruct warn; [apply fmap_app | reflexivity]. Qed.

Lemma getters_loop_run (get : Model -> object) (loc : string) (ks : list string)
    (warn : bool) (M : Model) (c : list string) :
  for_of ks (fun k =>
    read (fun M => HasProperty (get M) k) (fun methodWillOverride =>
      when methodWillOverride (when warn (console_warn (overrideWarning loc k)))))
    (State M c)
  = (Normal, State M (c ++ said warn loc (present_in (get M) ks))).
Proof.
  revert c. induction ks as [|k ks IH]; intros c; simpl.
  - unfold skip, said. destruct warn; simpl; by rewrite app_nil_r.
  - unfold seq at 1, read at 1. simpl.
    unfold present_in. rewrite filter_cons. fold (present_in (get M) ks).
    destruct (HasProperty (get M) k) eqn:Hk; simpl.
    + destruct warn; simpl.
      * unfold console_warn; simpl. rewrite IH. unfold said; simpl.
        by rewrite <- app_assoc.
      * unfold skip. rewrite IH. reflexivity.
    + unfold skip. rewrite IH. reflexivity.
Qed.

Lemma loadGetters_run m warn M c :
  loadGetters m warn (State M c)
  = (Normal,
     State (refreshAttributes
              (set_options_getterMethods (spread (options_getterMethods M) m) M))
           (c ++ said warn "getterMethods" (present_in (_customGetters M) (Object_keys m)))).
Proof.
  unfold loadGetters. unfold seq at 1.
  rewrite (getters_loop_run _customGetters). reflexivity.
Qed.

Lemma loadSetters_run m warn M c :
  loadSetters m warn (State M c)
  = (Normal,
     State (refreshAttributes
              (set_options_setterMethods (spread (options_setterMethods M) m) M))
           (c ++ said warn "setterMethods" (present_in (_customSetters M) (Object_keys m)))).
Proof.
  unfold loadSetters. unfold seq at 1.
  rewrite (getters_loop_run _customSetters). reflexivity.
Qed.

Lemma loadStatics_run m warn M c :
  loadStatics m warn (State M c)
  = (Normal,
     State (set_members (statics_after (members M) m) M)
           (c ++ said warn "static" (statics_conflicts (members M) m))).
Proof.
  unfold loadStatics, Object_entries.
  revert M c. induction m as [|[k v] m IH]; intros M c; cbn [for_of statics_after statics_conflicts].
  - unfold skip, said. destruct M, warn; simpl; by rewrite app_nil_r.
  - rewrite said_app, app_assoc.
    match goal with |- context [for_of m ?b] => set (rest := for_of m b) in * end.
    unfold seq, read, modify, when, skip, console_warn.
    cbv beta; cbn [target console].
    destruct (HasProperty (members M) k) eqn:Hk; destruct warn;
      cbn [target console]; rewrite IH; simpl; by rewrite ?app_nil_r.
Qed.

Lemma loadPrototypes_run m warn M c :
  loadPrototypes m warn (State M c)
  = let '(r, o, hits) := prototypes_loop (prototype M) m in
    (r, State (set_prototype o M) (c ++ said warn "prototype" hits)).
Proof.
  unfold loadPrototypes, Object_entries.
  revert M c. induction m as [|[k v] m IH]; intros M c; cbn [for_of prototypes_loop].
  - unfold skip, said. destruct M, warn; simpl; by rewrite app_nil_r.
  - match goal with |- context [for_of m ?b] => set (rest := for_of m b) in * end.
    unfold seq, read, Object_defineProperty_prototype, read, modify,
      throw_TypeError, when, skip, console_warn.
    cbv beta; cbn [target console].
    destruct (DefineOwnProperty (prototype M) k v) as [o'|] eqn:Hd.
    + destruct (HasProperty (prototype M) k) eqn:Hk; destruct warn;
        cbn [target console]; rewrite Hd; cbn [target console]; rewrite IH; simpl;
        destruct (prototypes_loop o' m) as [[r o''] hits]; simpl;
        by rewrite ?app_nil_r, <- ?app_assoc.
    + destruct (HasProperty (prototype M) k) eqn:Hk; destruct warn;
        cbn [target console]; rewrite Hd; destruct M; simpl; by rewrite ?app_nil_r.
Qed.

(** ** Assignment and definition, one property at a time *)

Lemma inherited_Set_ o k v : inherited (Set_ o k v) = inherited o.
Proof.
  unfold Set_. destruct (own o !! k) as [p|]; [by destruct (writable p)|].
  destruct (inherited o !! k) as [p|]; [by destruct (writable p)|done].
Qed.

Lemma own_Set__ne o k v k' : k ≠ k' → own (Set_ o k v) !! k' = own o !! k'.
Proof.
  intros Hne. unfold Set_.
  destruct (own o !! k) as [p|]; [destruct (writable p)|
    destruct (inherited o !! k) as [p|]; [destruct (writable p)|]];
    simpl; by rewrite ?lookup_insert_ne.
Qed.

Lemma own_Set__eq o k v :
  assignable o k = true →
  ∃ p, own (Set_ o k v) !! k = Some p ∧ p_value p = v.
Proof.
  unfold assignable, Set_.
  destruct (own o !! k) as [p|] eqn:Ho.
  - intros ->. simpl. rewrite lookup_insert_eq. by eexists.
  - destruct (inherited o !! k) as [p|]; [intros ->|intros _];
      simpl; rewrite lookup_insert_eq; by eexists.
Qed.

Lemma own_Set__new o k v :
  HasProperty o k = false → own (Set_ o k v) !! k = Some (assigned v).
Proof.
  unfold HasProperty, Set_. intros [H1 H2]%orb_false_elim.
  apply bool_decide_eq_false in H1, H2.
  rewrite <- eq_None_not_Some in H1, H2. rewrite H1, H2. simpl.
  apply lookup_insert_eq.
Qed.


Lemma HasProperty_Set__ne o k v k' :
  k ≠ k' → HasProperty (Set_ o k v) k' = HasProperty o k'.
Proof.
  intros Hne. unfold HasProperty. by rewrite own_Set__ne, inherited_Set_.
Qed.

Lemma inherited_DefineOwnProperty o k v o' :
  DefineOwnProperty o k v = Some o' → inherited o' = inherited o.
Proof.
  unfold DefineOwnProperty. destruct (own o !! k) as [p|].
  - destruct (configurable p || writable p); [by intros [= <-]|].
    destruct (decide (p_value p = v)); [by intros [= <-]|done].
  - by intros [= <-].
Qed.

Lemma own_DefineOwnProperty_ne o k v o' k' :
  DefineOwnProperty o k v = Some o' → k ≠ k' → own o' !! k' = own o !! k'.
Proof.
  unfold DefineOwnProperty. intros Hd Hne. destruct (own o !! k) as [p|].
  - destruct (configurable p || writable p).
    + injection Hd as <-. simpl. by rewrite lookup_insert_ne.
    + destruct (decide (p_value p = v)); [by injection Hd as <-|done].
  - injection Hd as <-. simpl. by rewrite lookup_insert_ne.
Qed.

Lemma own_DefineOwnProperty_eq o k v o' :
  DefineOwnProperty o k v = Some o' →
  ∃ p, own o' !! k = Some p ∧ p_value p = v.
Proof.
  unfold DefineOwnProperty. intros Hd. destruct (own o !! k) as [p|] eqn:Ho.
  - destruct (configurable p || writable p).
    + injection Hd as <-. simpl. rewrite lookup_insert_eq. by eexists.
    + destruct (decide (p_value p = v)) as [<-|]; [|done].
      injection Hd as <-. by eexists.
  - injection Hd as <-. simpl. rewrite lookup_insert_eq. by eexists.
Qed.

Lemma DefineOwnProperty_new o k v :
  own o !! k = None →
  DefineOwnProperty o k v = Some (Object (<[k := defined v]> (own o)) (inherited o)).
Proof. unfold DefineOwnProperty. by intros ->. Qed.

Lemma DefineOwnProperty_frozen o k v v' :
  own o !! k = Some (defined v) → v' ≠ v → DefineOwnProperty o k v' = None.
Proof.
  unfold DefineOwnProperty. intros -> Hne. simpl.
  destruct (decide (v = v')); [congruence|done].
Qed.

Lemma own_DefineOwnProperty_keeps o k v o' k' p :
  DefineOwnProperty o k v = Some o' →
  own o !! k' = Some p →
  ∃ p', own o' !! k' = Some p' ∧ (k ≠ k' → p' = p).
Proof.
  intros Hd Hp. destruct (decide (k = k')) as [<-|Hne].
  - destruct (own_DefineOwnProperty_eq _ _ _ _ Hd) as (p' & Hp' & _).
    exists p'. split; [done|congruence].
  - rewrite (own_DefineOwnProperty_ne _ _ _ _ _ Hd Hne). by eexists.
Qed.

Lemma HasProperty_DefineOwnProperty_ne o k v o' k' :
  DefineOwnProperty o k v = Some o' → k ≠ k' → HasProperty o' k' = HasProperty o k'.
Proof.
  intros Hd Hne. unfold HasProperty.
  by rewrite (own_DefineOwnProperty_ne _ _ _ _ _ Hd Hne),
    (inherited_DefineOwnProperty _ _ _ _ Hd).
Qed.

Lemma HasProperty_own o k p : own o !! k = Some p → HasProperty o k = true.
Proof.
  intros Hp. unfold HasProperty. rewrite Hp.
  by rewrite bool_decide_eq_true_2.
Qed.

Lemma HasProperty_inherited o k : is_Some (inherited o !! k) → HasProperty o k = true.
Proof.
  intros Hp. unfold HasProperty.
  rewrite (bool_decide_eq_true_2 (is_Some (inherited o !! k))) by done.
  apply orb_true_r.
Qed.

Lemma HasProperty_false o k :
  HasProperty o k = false ↔ own o !! k = None ∧ inherited o !! k = None.
Proof.
  unfold HasProperty. rewrite orb_false_iff, !bool_decide_eq_false.
  by rewrite <- !eq_None_not_Some.
Qed.

(** ** The loops of [loadStatics] and [loadPrototypes] *)

Lemma inherited_statics_after m o : inherited (statics_after o m) = inherited o.
Proof.
  revert o. induction m as [|[k v] m IH]; intros o; simpl; [done|].
  by rewrite IH, inherited_Set_.
Qed.

Lemma own_statics_after_notin m o n :
  n ∉ m.*1 → own (statics_after o m) !! n = own o !! n.
Proof.
  revert o. induction m as [|[k v] m IH]; intros o Hn; simpl in *; [done|].
  apply not_elem_of_cons in Hn as [Hne Hn].
  rewrite IH by done. by apply own_Set__ne.
Qed.


Lemma own_Set__local o1 o2 k v :
  own o1 !! k = own o2 !! k → inherited o1 !! k = inherited o2 !! k →
  own (Set_ o1 k v) !! k = own (Set_ o2 k v) !! k.
Proof.
  intros Ho Hi. unfold Set_. rewrite <- Ho, <- Hi.
  destruct (own o1 !! k) as [p|] eqn:Ho1.
  - destruct (writable p); simpl; by rewrite ?lookup_insert_eq, <- ?Ho.
  - destruct (inherited o1 !! k) as [p|]; [destruct (writable p)|];
      simpl; by rewrite ?lookup_insert_eq, <- ?Ho.
Qed.

Lemma own_statics_after_in m o n v :
  NoDup m.*1 → (n, v) ∈ m →
  own (statics_after o m) !! n = own (Set_ o n v) !! n.
Proof.
  revert o. induction m as [|[k v0] m IH]; intros o Hnd Hin; simpl in *.
  - by apply elem_of_nil in Hin.
  - apply NoDup_cons in Hnd as [Hk Hnd].
    apply elem_of_cons in Hin as [[= -> ->]|Hin].
    + by apply own_statics_after_notin.
    + assert (k ≠ n) as Hne.
      { intros ->. apply Hk. apply list_elem_of_fmap. by exists (n, v). }
      rewrite IH by done. apply own_Set__local.
      * by apply own_Set__ne.
      * by rewrite inherited_Set_.
Qed.

Lemma present_in_cons o k ks :
  present_in o (k :: ks)
  = (if HasProperty o k then [k] else []) ++ present_in o ks.
Proof.
  unfold present_in. rewrite filter_cons.
  destruct (HasProperty o k); simpl; by rewrite ?decide_True, ?decide_False by done.
Qed.

Lemma present_in_ext o1 o2 ks :
  (∀ k, k ∈ ks → HasProperty o1 k = HasProperty o2 k) →
  present_in o1 ks = present_in o2 ks.
Proof.
  induction ks as [|k ks IH]; intros Hext; [done|].
  rewrite !present_in_cons, IH.
  - rewrite Hext; [done|left].
  - intros k' Hk'. apply Hext. by right.
Qed.

Lemma statics_conflicts_NoDup m o :
  NoDup m.*1 → statics_conflicts o m = present_in o m.*1.
Proof.
  revert o. induction m as [|[k v] m IH]; intros o Hnd; simpl in *; [done|].
  apply NoDup_cons in Hnd as [Hk Hnd]. rewrite IH by done.
  rewrite present_in_cons. f_equal. apply present_in_ext.
  intros k' Hk'. apply HasProperty_Set__ne. by intros ->.
Qed.

Lemma prototypes_loop_inherited m o r o' hits :
  prototypes_loop o m = (r, o', hits) → inherited o' = inherited o.
Proof.
  revert o r o' hits. induction m as [|[k v] m IH]; intros o r o' hits; simpl.
  - by intros [= _ <- _].
  - destruct (DefineOwnProperty o k v) as [o1|] eqn:Hd.
    + destruct (prototypes_loop o1 m) as [[r1 o2] h2] eqn:Hl.
      intros [= _ <- _]. rewrite (IH _ _ _ _ Hl).
      by eapply inherited_DefineOwnProperty.
    + by intros [= _ <- _].
Qed.

Lemma prototypes_loop_keeps m o r o' hits n p :
  prototypes_loop o m = (r, o', hits) →
  own o !! n = Some p →
  ∃ p', own o' !! n = Some p' ∧ (n ∉ m.*1 → p' = p).
Proof.
  revert o r o' hits p. induction m as [|[k v] m IH]; intros o r o' hits p; simpl.
  - intros [= _ <- _] Hp. by eexists.
  - destruct (DefineOwnProperty o k v) as [o1|] eqn:Hd.
    + destruct (prototypes_loop o1 m) as [[r1 o2] h2] eqn:Hl.
      intros [= _ <- _] Hp.
      destruct (own_DefineOwnProperty_keeps _ _ _ _ _ _ Hd Hp) as (p1 & Hp1 & Hsame).
      destruct (IH _ _ _ _ _ Hl Hp1) as (p2 & Hp2 & Hsame2).
      exists p2. split; [done|]. intros [Hne Hn]%not_elem_of_cons.
      rewrite Hsame2 by done. by apply Hsame.
    + intros [= _ <- _] Hp. by eexists.
Qed.

Lemma prototypes_loop_notin m o r o' hits n :
  prototypes_loop o m = (r, o', hits) →
  n ∉ m.*1 → own o' !! n = own o !! n.
Proof.
  revert o r o' hits. induction m as [|[k v] m IH]; intros o r o' hits; simpl.
  - by intros [= _ <- _].
  - destruct (DefineOwnProperty o k v) as [o1|] eqn:Hd.
    + destruct (prototypes_loop o1 m) as [[r1 o2] h2] eqn:Hl.
      intros [= _ <- _] [Hne Hn]%not_elem_of_cons.
      rewrite (IH _ _ _ _ Hl Hn). by eapply own_DefineOwnProperty_ne.
    + by intros [= _ <- _].
Qed.

Lemma prototypes_loop_app l1 l2 o :
  prototypes_loop o (l1 ++ l2)
  = match prototypes_loop o l1 with
    | (Normal, o1, h1) =>
        let '(r, o2, h2) := prototypes_loop o1 l2 in (r, o2, h1 ++ h2)
    | (Throw_TypeError, o1, h1) => (Throw_TypeError, o1, h1)
    end.
Proof.
  revert o. induction l1 as [|[k v] l1 IH]; intros o; simpl.
  - by destruct (prototypes_loop o l2) as [[r o2] h2].
  - destruct (DefineOwnProperty o k v) as [o1|]; [|done].
    rewrite IH. destruct (prototypes_loop o1 l1) as [[[] o2] h2]; [|done].
    destruct (prototypes_loop o2 l2) as [[r o3] h3]. by rewrite app_assoc.
Qed.

(** A normally completed loop leaves each name that was not an own property
    as [Object.defineProperty] makes it. *)
Lemma prototypes_loop_installs m o o' hits n v :
  NoDup m.*1 →
  prototypes_loop o m = (Normal, o', hits) →
  (n, v) ∈ m → own o !! n = None →
  own o' !! n = Some (defined v).
Proof.
  revert o hits. induction m as [|[k v0] m IH]; intros o hits Hnd; simpl in *.
  - intros _ Hin. by apply elem_of_nil in Hin.
  - apply NoDup_cons in Hnd as [Hk Hnd].
    destruct (DefineOwnProperty o k v0) as [o1|] eqn:Hd; [|done].
    destruct (prototypes_loop o1 m) as [[r1 o2] h2] eqn:Hl.
    intros [= -> <- _] Hin Hnone.
    apply elem_of_cons in Hin as [[= -> ->]|Hin].
    + rewrite (prototypes_loop_notin _ _ _ _ _ _ Hl Hk).
      rewrite DefineOwnProperty_new in Hd by done. injection Hd as <-.
      simpl. apply lookup_insert_eq.
    + assert (k ≠ n) as Hne.
      { intros ->. apply Hk. apply list_elem_of_fmap. by exists (n, v). }
      eapply IH; [done|done|done|].
      by rewrite (own_DefineOwnProperty_ne _ _ _ _ _ Hd Hne).
Qed.

(** On names none of which is an own property the loop completes normally,
    and finds present exactly the inherited ones. *)
Lemma prototypes_loop_fresh m o :
  NoDup m.*1 →
  (∀ n, n ∈ m.*1 → own o !! n = None) →
  ∃ o', prototypes_loop o m = (Normal, o', present_in o m.*1).
Proof.
  revert o. induction m as [|[k v] m IH]; intros o Hnd Hfresh; simpl in *.
  - by eexists.
  - apply NoDup_cons in Hnd as [Hk Hnd].
    rewrite DefineOwnProperty_new by (apply Hfresh; left).
    set (o1 := Object _ _).
    destruct (IH o1) as (o' & Hl); [done| |].
    { intros n Hn. simpl. rewrite lookup_insert_ne by (by intros ->).
      apply Hfresh. by right. }
    exists o'. rewrite Hl. f_equal.
    rewrite present_in_cons. f_equal. apply present_in_ext.
    intros k' Hk'. unfold HasProperty, o1. simpl.
    rewrite lookup_insert_ne; [done|]. by intros ->.
Qed.

(** ** The option objects and [refreshAttributes] *)

Lemma spread_notin m old n : n ∉ m.*1 → spread old m !! n = old !! n.
Proof.
  unfold spread. revert old. induction m as [|[k v] m IH]; intros old Hn; simpl in *; [done|].
  apply not_elem_of_cons in Hn as [Hne Hn].
  rewrite IH by done. by apply lookup_insert_ne.
Qed.

Lemma spread_in m old n v :
  NoDup m.*1 → (n, v) ∈ m → spread old m !! n = Some v.
Proof.
  unfold spread. revert old. induction m as [|[k v0] m IH]; intros old Hnd Hin; simpl in *.
  - by apply elem_of_nil in Hin.
  - apply NoDup_cons in Hnd as [Hk Hnd].
    apply elem_of_cons in Hin as [[= -> ->]|Hin]; [|by apply IH].
    fold (spread (<[k:=v0]> old) m). rewrite spread_notin by done.
    apply lookup_insert_eq.
Qed.









(** ** The warn flag *)

Lemma warn_blind_seq f g :
  warn_blind f → warn_blind g → warn_blind (λ warn, f warn ;; g warn).
Proof.
  intros Hf Hg M.
  destruct (Hf M) as (r1 & M1 & ws1 & H1).
  destruct r1.
  - destruct (Hg M1) as (r2 & M2 & ws2 & H2).
    exists r2, M2, (ws1 ++ ws2). intros warn c. unfold seq. rewrite H1, H2.
    destruct warn; by rewrite <- ?app_assoc.
  - exists Throw_TypeError, M1, ws1. intros warn c. unfold seq. by rewrite H1.
Qed.

Lemma warn_blind_loadGetters m : warn_blind (loadGetters m).
Proof. intros M. do 3 eexists. intros warn c. apply loadGetters_run. Qed.

Lemma warn_blind_loadSetters m : warn_blind (loadSetters m).
Proof. intros M. do 3 eexists. intros warn c. apply loadSetters_run. Qed.

Lemma warn_blind_loadStatics m : warn_blind (loadStatics m).
Proof. intros M. do 3 eexists. intros warn c. apply loadStatics_run. Qed.

Lemma warn_blind_loadPrototypes m : warn_blind (loadPrototypes m).
Proof.
  intros M. destruct (prototypes_loop (prototype M) m) as [[r o] hits] eqn:Hl.
  exists r, (set_prototype o M), (overrideWarning "prototype" <$> hits).
  intros warn c. rewrite loadPrototypes_run, Hl. reflexivity.
Qed.

Lemma warn_blind_perform op : warn_blind (perform op).
Proof.
  destruct op as [m|m|m|m|ms]; simpl.
  - apply warn_blind_loadGetters.
  - apply warn_blind_loadSetters.
  - apply warn_blind_loadPrototypes.
  - apply warn_blind_loadStatics.
  - unfold loadExternalMethods.
    apply (warn_blind_seq (loadGetters _)); [apply warn_blind_loadGetters|].
    apply (warn_blind_seq (loadSetters _)); [apply warn_blind_loadSetters|].
    apply (warn_blind_seq (loadPrototypes _)); [apply warn_blind_loadPrototypes|].
    apply warn_blind_loadStatics.
Qed.

(** C3.  Whatever the Model, the operation (any of the four loaders or
    [loadExternalMethods]), its mappings and the console before the call:
    with [warn = false] the call writes nothing to the console, and it
    completes the same way and leaves the same Model as with [warn = true]. *)
Theorem warn_only_observability (op : operation) (M : Model) (c : list string) :
  console (perform op false (State M c)).2 = c ∧
  (perform op false (State M c)).1 = (perform op true (State M c)).1 ∧
  target (perform op false (State M c)).2 = target (perform op true (State M c)).2.
Proof.
  destruct (warn_blind_perform op M) as (r & M' & ws & H).
  rewrite !H. simpl. by rewrite app_nil_r.
Qed.

(** C4.  [loadExternalMethods] takes each of the four mappings of the bundle,
    an empty one where it is absent, and runs on the one Model, with the warn
    flag as given: the getters merge, then the setters merge, then the
    instance-methods merge, then the statics merge (which is not reached
    when the instance-methods merge throws). *)
Theorem loadExternalMethods_order (ms : methods) (warn : bool) (s : state) :
  ∃ s1 s2 r3 s3,
    loadGetters (default [] (getterMethods ms)) warn s = (Normal, s1) ∧
    loadSetters (default [] (setterMethods ms)) warn s1 = (Normal, s2) ∧
    loadPrototypes (default [] (prototypeMethods ms)) warn s2 = (r3, s3) ∧
    loadExternalMethods ms warn s
    = match r3 with
      | Normal => loadStatics (default [] (staticMethods ms)) warn s3
      | Throw_TypeError => (Throw_TypeError, s3)
      end.
Proof.
  destruct s as [M c]. unfold loadExternalMethods.
  eexists _, _, _, _. split; [apply loadGetters_run|].
  split; [apply loadSetters_run|].
  split; [apply surjective_pairing|].
  unfold seq at 1. rewrite loadGetters_run.
  unfold seq at 1. rewrite loadSetters_run.
  unfold seq at 1.
  match goal with |- context [loadPrototypes ?m ?w ?s] =>
    destruct (loadPrototypes m w s) as [[] s3] end; reflexivity.
Qed.

(** ** Empty inputs *)



Lemma set_members_id M : set_members (members M) M = M.
Proof. by destruct M. Qed.

Lemma set_prototype_id M : set_prototype (prototype M) M = M.
Proof. by destruct M. Qed.


(** ** The counters *)

Lemma size_assigned (g : gmap string value) : size (assigned <$> g) = size g.
Proof. apply map_size_fmap. Qed.






(** ** Entries are never removed *)


(** ** Sample Models *)

Example bare_Model_refreshed : refreshed bare_Model.
Proof. reflexivity. Qed.

Example tested_Model_refreshed : refreshed tested_Model.
Proof. reflexivity. Qed.

(** ** The warning message *)

Lemma list_ascii_of_string_app s1 s2 :
  String.list_ascii_of_string (s1 +:+ s2)
  = String.list_ascii_of_string s1 ++ String.list_ascii_of_string s2.
Proof. induction s1 as [|a s1 IH]; simpl; [done|]. by rewrite IH. Qed.

Lemma append_inj_r t s1 s2 : s1 +:+ t = s2 +:+ t → s1 = s2.
Proof.
  intros H%(f_equal String.list_ascii_of_string).
  rewrite !list_ascii_of_string_app in H. apply app_inv_tail in H.
  rewrite <- (String.string_of_list_ascii_of_string s1), <- (String.string_of_list_ascii_of_string s2).
  by rewrite H.
Qed.

Lemma overrideWarning_inj location n1 n2 :
  overrideWarning location n1 = overrideWarning location n2 → n1 = n2.
Proof.
  unfold overrideWarning. intros H.
  do 3 apply (inj (String.app _)) in H. by apply append_inj_r in H.
Qed.

Lemma elem_of_present_in o n ks :
  n ∈ present_in o ks ↔ n ∈ ks ∧ HasProperty o n = true.
Proof. unfold present_in. rewrite list_elem_of_filter. tauto. Qed.

(** ** Statics *)

Lemma Get_own o n p : own o !! n = Some p → Get o n = Some (p_value p).
Proof. unfold Get. by intros ->. Qed.

Lemma own_Set__readonly o k v :
  assignable o k = false → Set_ o k v = o.
Proof.
  unfold assignable, Set_. destruct (own o !! k) as [p|].
  - by intros ->.
  - destruct (inherited o !! k) as [p|]; [by intros ->|done].
Qed.

Lemma loadStatics_assigns m warn M n v :
  NoDup (Object_keys m) → (n, v) ∈ m → assignable (members M) n = true →
  Get (members (result (loadStatics m warn) M)) n = Some v.
Proof.
  intros Hnd Hin Ha. unfold result, run. rewrite loadStatics_run. simpl.
  destruct (own_Set__eq (members M) n v Ha) as (p & Hp & <-).
  apply Get_own. by rewrite (own_statics_after_in m _ n (p_value p)).
Qed.

Lemma loadStatics_readonly m warn M n v :
  NoDup (Object_keys m) → (n, v) ∈ m → assignable (members M) n = false →
  own (members (result (loadStatics m warn) M)) !! n = own (members M) !! n.
Proof.
  intros Hnd Hin Ha. unfold result, run. rewrite loadStatics_run. simpl.
  rewrite (own_statics_after_in m _ n v) by done.
  by rewrite own_Set__readonly.
Qed.

(** What [loadStatics] does with a mapping listing each name once: with
    [warn = true] it warns, in order, about exactly the names the Model
    already has as a member, its own or inherited ([name in Model]); it
    always completes normally; after it each name that could be assigned
    resolves to its callable, and where a read-only member stands in the way
    the member is left as it was.  On a Model with an assignable member
    [findById], [loadExternalMethods] with [staticMethods: { findById: newFn }]
    and [warn = true] writes the one warning
    [Existing [static] method [findById] overridden by loadExternalMethods]
    and leaves [Model.findById] being [newFn]. *)
Theorem loadStatics_warns_and_assigns (M : Model) (m : mapping) :
  NoDup (Object_keys m) →
  warnings (loadStatics m true) M
    = overrideWarning "static" <$> present_in (members M) (Object_keys m) ∧
  (∀ n, n ∈ Object_keys m →
     overrideWarning "static" n ∈ warnings (loadStatics m true) M
     ↔ HasProperty (members M) n = true) ∧
  (∀ warn, outcome (loadStatics m warn) M = Normal) ∧
  (∀ warn n v, (n, v) ∈ m → assignable (members M) n = true →
     Get (members (result (loadStatics m warn) M)) n = Some v) ∧
  (∀ warn n v, (n, v) ∈ m → assignable (members M) n = false →
     own (members (result (loadStatics m warn) M)) !! n = own (members M) !! n) ∧
  (∀ newFn,
     HasProperty (members M) "findById" = true →
     assignable (members M) "findById" = true →
     warnings (loadExternalMethods
                 (mkMethods (Some [("findById", newFn)]) None None None) true) M
       = ["Existing [static] method [findById] overridden by loadExternalMethods"] ∧
     Get (members (result (loadExternalMethods
                             (mkMethods (Some [("findById", newFn)]) None None None) true)
                     M)) "findById" = Some newFn).
Proof.
  intros Hnd.
  assert (warnings (loadStatics m true) M
          = overrideWarning "static" <$> present_in (members M) (Object_keys m)) as Hw.
  { unfold warnings, run. rewrite loadStatics_run. simpl.
    by rewrite statics_conflicts_NoDup. }
  split; [done|]. split.
  { intros n Hn. rewrite Hw. rewrite list_elem_of_fmap. split.
    - intros (n' & ->%overrideWarning_inj & Hin). by apply elem_of_present_in in Hin as [_ ?].
    - intros Hp. exists n. split; [done|]. by apply elem_of_present_in. }
  split.
  { intros warn. unfold outcome, run. by rewrite loadStatics_run. }
  split; [intros warn n v; by apply loadStatics_assigns|].
  split; [intros warn n v; by apply loadStatics_readonly|].
  intros newFn Hhas Hassign.
  unfold warnings, result, run, loadExternalMethods. simpl default.
  unfold seq. rewrite loadGetters_run, loadSetters_run. simpl.
  rewrite loadStatics_run. simpl. rewrite Hhas. simpl. split; [done|].
  destruct (own_Set__eq (members M) "findById" newFn Hassign) as (p & Hp & <-).
  by apply Get_own.
Qed.

(** ** Instance methods *)

Lemma prototypes_loop_HasProperty m o r o' hits n :
  prototypes_loop o m = (r, o', hits) →
  HasProperty o n = true → HasProperty o' n = true.
Proof.
  intros Hl. unfold HasProperty. rewrite !orb_true_iff, !bool_decide_eq_true.
  intros [[p Hp]|Hi].
  - left. destruct (prototypes_loop_keeps _ _ _ _ _ _ _ Hl Hp) as (p' & Hp' & _).
    by eexists.
  - right. by rewrite (prototypes_loop_inherited _ _ _ _ _ Hl).
Qed.

Lemma prototypes_loop_hit o n v l2 :
  HasProperty o n = true →
  ∃ r o' rest, prototypes_loop o ((n, v) :: l2) = (r, o', n :: rest).
Proof.
  intros Hn. simpl. rewrite Hn.
  destruct (DefineOwnProperty o n v) as [o1|].
  - destruct (prototypes_loop o1 l2) as [[r o2] h2]. by eexists _, _, _.
  - by eexists _, _, _.
Qed.

(** C10.  [loadPrototypes] tests [name in Model.prototype], which sees what
    the prototype inherits.  So for a name the prototype inherits, whether or
    not the prototype itself has an entry of that name: merging a method
    under that name alone with [warn = true] writes exactly the override
    warning for it; and in a longer mapping, once the entries before it have
    been merged normally, its override warning is the next one written. *)
Theorem loadPrototypes_warns_on_inherited (M : Model) (n : string) (v : value) :
  is_Some (inherited (prototype M) !! n) →
  warnings (loadPrototypes [(n, v)] true) M = [overrideWarning "prototype" n] ∧
  (∀ l1 l2 c s1,
     loadPrototypes l1 true (State M c) = (Normal, s1) →
     ∃ rest,
       console (loadPrototypes (l1 ++ (n, v) :: l2) true (State M c)).2
       = console s1 ++ overrideWarning "prototype" n :: rest).
Proof.
  intros Hi%HasProperty_inherited. split.
  - unfold warnings, run. rewrite loadPrototypes_run. simpl. rewrite Hi.
    by destruct (DefineOwnProperty (prototype M) n v).
  - intros l1 l2 c s1. rewrite !loadPrototypes_run, prototypes_loop_app.
    destruct (prototypes_loop (prototype M) l1) as [[r1 o1] h1] eqn:Hl1.
    intros [= -> <-].
    pose proof (prototypes_loop_HasProperty _ _ _ _ _ _ Hl1 Hi) as Hi1.
    destruct (prototypes_loop_hit o1 n v l2 Hi1) as (r & o' & rest & ->).
    exists (overrideWarning "prototype" <$> rest). simpl.
    by rewrite fmap_app, fmap_cons, app_assoc.
Qed.

(** ** Merging into an empty region *)

Lemma present_in_nil_inv o ks :
  (∀ n, n ∈ ks → HasProperty o n = false) → present_in o ks = [].
Proof.
  induction ks as [|k ks IH]; intros H; [done|].
  rewrite present_in_cons, H, IH; [done| |left].
  intros n Hn. apply H. by right.
Qed.

Lemma merge_warnings_fresh r M m warn :
  NoDup (Object_keys m) →
  (∀ n, n ∈ Object_keys m → own (region_object r M) !! n = None) →
  warnings (merge r m warn) M
  = if warn then overrideWarning (location r) <$> present_in (region_object r M) (Object_keys m)
    else [].
Proof.
  intros Hnd Hfresh. unfold warnings, run. destruct r; simpl.
  - by rewrite loadGetters_run.
  - by rewrite loadSetters_run.
  - rewrite loadPrototypes_run.
    destruct (prototypes_loop_fresh m (prototype M) Hnd Hfresh) as (o' & ->). done.
  - rewrite loadStatics_run. simpl. by rewrite statics_conflicts_NoDup.
Qed.

(** C9, as the code has it.  Merging, with any of the four loaders, a mapping
    listing each name once into a region that holds no entry: the call
    completes normally; every name of the mapping then resolves in that
    region to its callable (for the statics, every name that no inherited
    read-only member blocks); and the warnings written, when [warn = true], are
    exactly those of the names the region's object inherits through its
    prototype chain, so none at all when it inherits none of the names. *)
Theorem merge_into_empty_region (r : region) (M : Model) (m : mapping) (warn : bool) :
  own (region_object r M) = ∅ → NoDup (Object_keys m) →
  outcome (merge r m warn) M = Normal ∧
  (∀ n v, (n, v) ∈ m →
     (r = Statics → assignable (members M) n = true) →
     holds r (result (merge r m warn) M) n = Some v) ∧
  warnings (merge r m warn) M
    = (if warn
       then overrideWarning (location r)
              <$> filter (fun n => is_Some (inherited (region_object r M) !! n)) (Object_keys m)
       else []) ∧
  ((∀ n, n ∈ Object_keys m → inherited (region_object r M) !! n = None) →
   warnings (merge r m warn) M = []).
Proof.
  intros Hempty Hnd.
  assert (∀ n, n ∈ Object_keys m → own (region_object r M) !! n = None) as Hfresh.
  { intros n _. by rewrite Hempty. }
  assert (∀ n, HasProperty (region_object r M) n = true
               ↔ is_Some (inherited (region_object r M) !! n)) as Hin.
  { intros n. unfold HasProperty. rewrite Hempty, lookup_empty.
    rewrite orb_true_iff, !bool_decide_eq_true. split; [|auto].
    intros [[? [=]]|]; done. }
  split; [|split; [|split]].
  - unfold outcome, run. destruct r; simpl.
    + by rewrite loadGetters_run.
    + by rewrite loadSetters_run.
    + rewrite loadPrototypes_run.
      by destruct (prototypes_loop_fresh m (prototype M) Hnd Hfresh) as (o' & ->).
    + by rewrite loadStatics_run.
  - intros n v Hnv Hassign. unfold holds, result, run. destruct r; simpl in *.
    + rewrite loadGetters_run. simpl. by rewrite lookup_fmap, (spread_in m _ n v).
    + rewrite loadSetters_run. simpl. by rewrite lookup_fmap, (spread_in m _ n v).
    + rewrite loadPrototypes_run.
      destruct (prototypes_loop_fresh m (prototype M) Hnd Hfresh) as (o' & Hl).
      rewrite Hl. simpl.
      rewrite (prototypes_loop_installs m _ _ _ n v Hnd Hl Hnv); [done|].
      by rewrite Hempty.
    + rewrite loadStatics_run. simpl.
      rewrite (own_statics_after_in m _ n v) by done.
      destruct (own_Set__eq (members M) n v (Hassign eq_refl)) as (p & -> & <-). done.
  - rewrite merge_warnings_fresh by done. destruct warn; [|done]. f_equal.
    unfold present_in. by apply list_filter_iff.
  - intros Hnone. rewrite merge_warnings_fresh by done. destruct warn; [|done].
    rewrite present_in_nil_inv; [done|]. intros n Hn.
    apply HasProperty_false. split; auto.
Qed.

(** ** Merging one name twice *)

Lemma merge_one_new r M n V1 :
  HasProperty (region_object r M) n = false →
  warnings (merge r [(n, V1)] true) M = [] ∧
  holds r (result (merge r [(n, V1)] true) M) n = Some V1 ∧
  ∃ p, own (region_object r (result (merge r [(n, V1)] true) M)) !! n = Some p ∧
       (r ≠ InstanceMethods → writable p = true).
Proof.
  intros Hn. pose proof Hn as [Hown Hinh]%HasProperty_false.
  unfold warnings, holds, result, run. destruct r; simpl in *.
  - rewrite loadGetters_run. simpl. rewrite present_in_cons, Hn. simpl.
    rewrite lookup_fmap, lookup_insert_eq. simpl. split; [done|]. split; [done|].
    by eexists.
  - rewrite loadSetters_run. simpl. rewrite present_in_cons, Hn. simpl.
    rewrite lookup_fmap, lookup_insert_eq. simpl. split; [done|]. split; [done|].
    by eexists.
  - rewrite loadPrototypes_run. simpl. rewrite Hn, DefineOwnProperty_new by done.
    simpl. rewrite lookup_insert_eq. split; [done|]. split; [done|].
    by eexists.
  - rewrite loadStatics_run. simpl. rewrite Hn. simpl.
    rewrite own_Set__new by done. split; [done|]. split; [done|].
    by eexists.
Qed.

Lemma merge_one_present r M n V2 p :
  own (region_object r M) !! n = Some p →
  warnings (merge r [(n, V2)] true) M = [overrideWarning (location r) n] ∧
  (r = InstanceMethods ∨ writable p = true →
   r ≠ InstanceMethods →
   holds r (result (merge r [(n, V2)] true) M) n = Some V2).
Proof.
  intros Hp. pose proof (HasProperty_own _ _ _ Hp) as Hn.
  unfold warnings, holds, result, run. destruct r; simpl in *.
  - rewrite loadGetters_run. simpl. rewrite present_in_cons, Hn. simpl.
    by rewrite lookup_fmap, lookup_insert_eq.
  - rewrite loadSetters_run. simpl. rewrite present_in_cons, Hn. simpl.
    by rewrite lookup_fmap, lookup_insert_eq.
  - rewrite loadPrototypes_run. simpl. rewrite Hn.
    destruct (DefineOwnProperty (prototype M) n V2); simpl; split; done.
  - rewrite loadStatics_run. simpl. rewrite Hn. simpl. split; [done|].
    intros [[=]|Hw] _. unfold Set_. rewrite Hp, Hw. simpl.
    by rewrite lookup_insert_eq.
Qed.

(** C1, as the code has it.  For every Model, region and name the region's
    object does not have yet, neither as an entry nor through its prototype
    chain, and callables [V1] then [V2]: merging [{ n: V1 }] with
    [warn = true] writes no warning and leaves the region holding [V1];
    merging [{ n: V2 }] next with [warn = true] writes exactly one override
    warning; and in the getters, the setters and the statics region the
    region then holds [V2]. *)
Theorem last_write_wins (r : region) (M : Model) (n : string) (V1 V2 : value) :
  HasProperty (region_object r M) n = false →
  warnings (merge r [(n, V1)] true) M = [] ∧
  holds r (result (merge r [(n, V1)] true) M) n = Some V1 ∧
  warnings (merge r [(n, V2)] true) (result (merge r [(n, V1)] true) M)
    = [overrideWarning (location r) n] ∧
  (r ≠ InstanceMethods → merged_twice r M n V1 V2).
Proof.
  intros Hn.
  destruct (merge_one_new r M n V1 Hn) as (Hw1 & Hh1 & p & Hp & Hwr).
  destruct (merge_one_present r _ n V2 p Hp) as (Hw2 & Hh2).
  split; [done|]. split; [done|]. split; [done|].
  intros Hr. unfold merged_twice. split; [done|]. split; [done|].
  apply Hh2; [right; by apply Hwr|done].
Qed.

(** ** Definitions that [Object.defineProperty] rejects *)

(** C2, as the code has it.  After a [loadPrototypes] call that completed
    normally on a mapping listing each name once, every name of the mapping
    that was not an own property of the prototype before the call is an own
    property holding its method, not writable, not enumerable and not
    configurable.  For such a name, a later [loadPrototypes] call that
    supplies a different value, after entries that merge normally, throws a
    [TypeError] at that name: the entries before it stay merged (the Model is
    the one they leave, the console theirs plus the override warning of the
    failing name when [warn] is set) and the entries after it are not
    processed. *)
Theorem loadPrototypes_installs_frozen (M : Model) (m : mapping) (warn : bool)
    (c : list string) (s' : state) :
  NoDup (Object_keys m) →
  loadPrototypes m warn (State M c) = (Normal, s') →
  ∀ n v, (n, v) ∈ m → own (prototype M) !! n = None →
    own (prototype (target s')) !! n = Some (defined v) ∧
    (∀ l1 l2 v' warn2 s1,
       v' ≠ v → n ∉ Object_keys l1 →
       loadPrototypes l1 warn2 s' = (Normal, s1) →
       loadPrototypes (l1 ++ (n, v') :: l2) warn2 s'
       = (Throw_TypeError,
          State (target s1)
                (console s1 ++ if warn2 then [overrideWarning "prototype" n] else []))).
Proof.
  intros Hnd Hrun n v Hnv Hnew.
  rewrite loadPrototypes_run in Hrun.
  destruct (prototypes_loop (prototype M) m) as [[r o] hits] eqn:Hl.
  injection Hrun as -> <-. simpl.
  pose proof (prototypes_loop_installs m _ _ _ n v Hnd Hl Hnv Hnew) as Hn.
  split; [done|].
  intros l1 l2 v' warn2 s1 Hne Hnotin.
  rewrite !loadPrototypes_run, prototypes_loop_app. simpl.
  destruct (prototypes_loop o l1) as [[r1 o1] h1] eqn:Hl1.
  intros [= -> <-]. simpl.
  assert (own o1 !! n = Some (defined v)) as Hn1.
  { by rewrite (prototypes_loop_notin _ _ _ _ _ _ Hl1 Hnotin). }
  rewrite (HasProperty_own _ _ _ Hn1).
  rewrite (DefineOwnProperty_frozen o1 n v v' Hn1 Hne).
  rewrite said_app, app_assoc. by destruct warn2.
Qed.

(** ** The claims on sample Models *)

(** C1 fails as stated, twice over.  On a Model that already has the static
    [staticName], the first merge warns.  On a Model with nothing of its own,
    the second [loadPrototypes] throws and the prototype still holds the
    first method. *)
Lemma merged_twice_fails :
  warnings (merge Statics [("staticName", Fn 1)] true) tested_Model
    = [overrideWarning "static" "staticName"] ∧
  ¬ merged_twice Statics tested_Model "staticName" (Fn 1) (Fn 2) ∧
  outcome (merge InstanceMethods [("getFullName", Fn 2)] true)
    (result (merge InstanceMethods [("getFullName", Fn 1)] true) bare_Model)
    = Throw_TypeError ∧
  holds InstanceMethods
    (result (merge InstanceMethods [("getFullName", Fn 2)] true)
       (result (merge InstanceMethods [("getFullName", Fn 1)] true) bare_Model))
    "getFullName" = Some (Fn 1) ∧
  ¬ merged_twice InstanceMethods bare_Model "getFullName" (Fn 1) (Fn 2).
Proof.
  split; [vm_compute; reflexivity|]. split.
  { intros (H & _). vm_compute in H. discriminate. }
  split; [vm_compute; reflexivity|]. split; [vm_compute; reflexivity|].
  intros (_ & _ & H). vm_compute in H. discriminate.
Qed.




Lemma last_write_wins_witness :
  HasProperty (region_object Getters bare_Model) "fullName" = false ∧
  merged_twice Getters bare_Model "fullName" (Fn 1) (Fn 2).
Proof.
  split; [reflexivity|].
  apply (last_write_wins Getters bare_Model "fullName" (Fn 1) (Fn 2));
    [reflexivity|discriminate].
Defined.

(** C2 fails as stated: a prototype property made by assignment keeps its
    attributes when [loadPrototypes] redefines it, so it is still writable,
    enumerable and configurable, and a later call with another value
    replaces it without an exception. *)
Lemma installed_not_always_frozen :
  outcome (loadPrototypes [("prototypeName", Str "methodDef")] true) tested_Model = Normal ∧
  own (prototype (result (loadPrototypes [("prototypeName", Str "methodDef")] true)
                    tested_Model)) !! "prototypeName"
    = Some (Property (Str "methodDef") true true true) ∧
  outcome (loadPrototypes [("prototypeName", Str "otherDef")] true)
    (result (loadPrototypes [("prototypeName", Str "methodDef")] true) tested_Model)
    = Normal ∧
  holds InstanceMethods
    (result (loadPrototypes [("prototypeName", Str "otherDef")] true)
       (result (loadPrototypes [("prototypeName", Str "methodDef")] true) tested_Model))
    "prototypeName" = Some (Str "otherDef").
Proof. repeat split; vm_compute; reflexivity. Qed.

Lemma loadPrototypes_installs_frozen_witness :
  own (prototype (result (loadPrototypes [("a", Fn 1); ("b", Fn 2)] true) bare_Model)) !! "b"
    = Some (defined (Fn 2)) ∧
  loadPrototypes [("c", Fn 3); ("b", Fn 4); ("d", Fn 5)] true
    (run (loadPrototypes [("a", Fn 1); ("b", Fn 2)] true) bare_Model).2
  = (Throw_TypeError,
     State (target (run (loadPrototypes [("c", Fn 3)] true)
                      (result (loadPrototypes [("a", Fn 1); ("b", Fn 2)] true) bare_Model)).2)
           [overrideWarning "prototype" "b"]).
Proof.
  destruct (loadPrototypes_installs_frozen bare_Model [("a", Fn 1); ("b", Fn 2)] true []
              (run (loadPrototypes [("a", Fn 1); ("b", Fn 2)] true) bare_Model).2
              ltac:(by_compute) ltac:(vm_compute; reflexivity)
              "b" (Fn 2) ltac:(by_compute) ltac:(reflexivity)) as [H1 H2].
  split; [exact H1|].
  exact (H2 [("c", Fn 3)] [("d", Fn 5)] (Fn 4) true
           (run (loadPrototypes [("c", Fn 3)] true)
              (result (loadPrototypes [("a", Fn 1); ("b", Fn 2)] true) bare_Model)).2
           ltac:(discriminate) ltac:(by_compute) ltac:(vm_compute; reflexivity)).
Defined.




(** C7.  [loadStatics] is to warn about a name the Model already has and
    then to write the callable under it, so that after
    [staticMethods: { findById: newFn }] the Model's [findById] is [newFn].
    On a read-only member the code writes the warning, which says the method
    was overridden, and overrides nothing.  A class has its own read-only
    [name]: after [loadStatics] with [{ name: newFn }] the warning is written
    and [Model.name] is still the class name.  And when [findById] was
    installed read-only, [loadExternalMethods] with
    [staticMethods: { findById: newFn }] writes the warning and
    [Model.findById] is still the old function. *)
Lemma read_only_static_not_overwritten :
  warnings (loadStatics [("name", Fn 20)] true) class_Model
    = ["Existing [static] method [name] overridden by loadExternalMethods"] ∧
  Get (members (result (loadStatics [("name", Fn 20)] true) class_Model)) "name"
    = Some (Str "Student") ∧
  Get (members (result (loadStatics [("name", Fn 20)] true) class_Model)) "name"
    ≠ Some (Fn 20) ∧
  warnings (loadExternalMethods (mkMethods (Some [("findById", Fn 20)]) None None None) true)
    guarded_Model
    = ["Existing [static] method [findById] overridden by loadExternalMethods"] ∧
  Get (members (result (loadExternalMethods
                          (mkMethods (Some [("findById", Fn 20)]) None None None) true)
                  guarded_Model)) "findById"
    = Some (Fn 10) ∧
  Get (members (result (loadExternalMethods
                          (mkMethods (Some [("findById", Fn 20)]) None None None) true)
                  guarded_Model)) "findById"
    ≠ Some (Fn 20).
Proof. repeat split; vm_compute; (reflexivity || discriminate). Qed.

Lemma loadStatics_warns_and_assigns_witness :
  NoDup (Object_keys [("findById", Fn 20); ("findByEmail", Fn 21)]) ∧
  warnings (loadStatics [("findById", Fn 20); ("findByEmail", Fn 21)] true) class_Model
    = ["Existing [static] method [findById] overridden by loadExternalMethods"] ∧
  Get (members (result (loadStatics [("findById", Fn 20); ("findByEmail", Fn 21)] true)
                  class_Model)) "findById" = Some (Fn 20).
Proof.
  split; [by_compute|].
  destruct (loadStatics_warns_and_assigns class_Model
              [("findById", Fn 20); ("findByEmail", Fn 21)] ltac:(by_compute))
    as (Hw & _ & _ & Hget & _).
  split; [exact Hw|].
  exact (Hget true "findById" (Fn 20) ltac:(by_compute) ltac:(reflexivity)).
Defined.

(** C9 fails as stated: every region of the Model is empty, yet merging an
    instance method [toString], or a getter [constructor], writes a warning,
    since the objects inherit these names from [Object.prototype]. *)
Lemma empty_region_still_warns :
  own (region_object Getters bare_Model) = ∅ ∧
  own (region_object Setters bare_Model) = ∅ ∧
  own (region_object InstanceMethods bare_Model) = ∅ ∧
  own (region_object Statics bare_Model) = ∅ ∧
  warnings (merge InstanceMethods [("toString", Fn 20)] true) bare_Model
    = ["Existing [prototype] method [toString] overridden by loadExternalMethods"] ∧
  warnings (merge InstanceMethods [("toString", Fn 20)] true) bare_Model ≠ [] ∧
  warnings (merge Getters [("constructor", Fn 21)] true) bare_Model
    = ["Existing [getterMethods] method [constructor] overridden by loadExternalMethods"].
Proof. repeat split; vm_compute; (reflexivity || discriminate). Qed.

Lemma merge_into_empty_region_witness :
  own (region_object Getters bare_Model) = ∅ ∧
  NoDup (Object_keys [("a", Fn 1); ("b", Fn 2)]) ∧
  outcome (merge Getters [("a", Fn 1); ("b", Fn 2)] true) bare_Model = Normal ∧
  holds Getters (result (merge Getters [("a", Fn 1); ("b", Fn 2)] true) bare_Model) "b"
    = Some (Fn 2) ∧
  warnings (merge Getters [("a", Fn 1); ("b", Fn 2)] true) bare_Model = [].
Proof.
  split; [reflexivity|]. split; [by_compute|].
  destruct (merge_into_empty_region Getters bare_Model [("a", Fn 1); ("b", Fn 2)] true
              ltac:(reflexivity) ltac:(by_compute)) as (Ho & Hh & Hw & _).
  split; [exact Ho|]. split; [|exact Hw].
  exact (Hh "b" (Fn 2) ltac:(by_compute) ltac:(discriminate)).
Defined.

Lemma loadPrototypes_warns_on_inherited_witness :
  own (prototype bare_Model) !! "toString" = None ∧
  is_Some (inherited (prototype bare_Model) !! "toString") ∧
  warnings (loadPrototypes [("toString", Fn 20)] true) bare_Model
    = ["Existing [prototype] method [toString] overridden by loadExternalMethods"].
Proof.
  split; [reflexivity|]. split; [by_compute|].
  exact (proj1 (loadPrototypes_warns_on_inherited bare_Model "toString" (Fn 20)
                  ltac:(by_compute))).
Defined.

(** * Further properties of the loaders *)

(** ** [loadPrototypes]: when it throws and what it leaves *)

Lemma with_value_same p : with_value p (p_value p) = p.
Proof. by destruct p. Qed.

Lemma DefineOwnProperty_None o k v :
  DefineOwnProperty o k v = None ↔
  ∃ p, own o !! k = Some p ∧ frozen p = true ∧ p_value p ≠ v.
Proof.
  unfold DefineOwnProperty, frozen. destruct (own o !! k) as [p|]; split.
  - destruct (configurable p || writable p) eqn:E; [done|].
    destruct (decide (p_value p = v)); [done|]. intros _. exists p.
    by rewrite E.
  - intros (p' & [= <-] & Hf & Hne). apply negb_true_iff in Hf. rewrite Hf.
    by destruct (decide (p_value p = v)).
  - done.
  - by intros (p' & [=] & _).
Qed.

Lemma DefineOwnProperty_Some o k v o' :
  DefineOwnProperty o k v = Some o' →
  own o' !! k = Some (match own o !! k with
                      | None => defined v
                      | Some p => with_value p v
                      end).
Proof.
  unfold DefineOwnProperty. destruct (own o !! k) as [p|] eqn:Hp.
  - destruct (configurable p || writable p).
    + intros [= <-]. simpl. apply lookup_insert_eq.
    + destruct (decide (p_value p = v)) as [<-|]; [|done].
      intros [= <-]. by rewrite with_value_same.
  - intros [= <-]. simpl. apply lookup_insert_eq.
Qed.

Lemma prototypes_loop_throws m o :
  NoDup m.*1 →
  (prototypes_loop o m).1.1 = Throw_TypeError ↔
  ∃ n v p, (n, v) ∈ m ∧ own o !! n = Some p ∧ frozen p = true ∧ p_value p ≠ v.
Proof.
  revert o. induction m as [|[k v] m IH]; intros o Hnd; simpl in *.
  - split; [done|]. intros (n & v & p & []%elem_of_nil & _).
  - apply NoDup_cons in Hnd as [Hk Hnd].
    destruct (DefineOwnProperty o k v) as [o1|] eqn:Hd.
    + destruct (prototypes_loop o1 m) as [[r o2] hits] eqn:Hl. simpl.
      specialize (IH o1 Hnd). rewrite Hl in IH. simpl in IH. rewrite IH.
      assert (∀ n, n ∈ m.*1 → own o1 !! n = own o !! n) as Hsame.
      { intros n Hn. eapply own_DefineOwnProperty_ne; [done|]. by intros ->. }
      assert (∀ n w, (n, w) ∈ m → n ∈ m.*1) as Hkeys.
      { intros n w Hin. apply list_elem_of_fmap. by exists (n, w). }
      split.
      * intros (n & w & p & Hin & Hp & Hf & Hne). exists n, w, p.
        rewrite <- (Hsame n) by eauto. split; [by right|done].
      * intros (n & w & p & Hin & Hp & Hf & Hne).
        apply elem_of_cons in Hin as [[= -> ->]|Hin].
        -- assert (DefineOwnProperty o k v = None) as Hnone
             by (apply DefineOwnProperty_None; eauto).
           congruence.
        -- exists n, w, p. rewrite (Hsame n) by eauto. done.
    + simpl. split; [intros _|done].
      apply DefineOwnProperty_None in Hd as (p & Hp & Hf & Hne).
      exists k, v, p. split; [left|done].
Qed.

Lemma prototypes_loop_result m o o' hits n v :
  NoDup m.*1 →
  prototypes_loop o m = (Normal, o', hits) →
  (n, v) ∈ m →
  own o' !! n = Some (match own o !! n with
                      | None => defined v
                      | Some p => with_value p v
                      end).
Proof.
  revert o hits. induction m as [|[k v0] m IH]; intros o hits Hnd; simpl in *.
  - intros _ Hin. by apply elem_of_nil in Hin.
  - apply NoDup_cons in Hnd as [Hk Hnd].
    destruct (DefineOwnProperty o k v0) as [o1|] eqn:Hd; [|done].
    destruct (prototypes_loop o1 m) as [[r1 o2] h2] eqn:Hl.
    intros [= -> <- _] Hin.
    apply elem_of_cons in Hin as [[= -> ->]|Hin].
    + rewrite (prototypes_loop_notin _ _ _ _ _ _ Hl Hk).
      by apply DefineOwnProperty_Some.
    + assert (k ≠ n) as Hne.
      { intros ->. apply Hk. apply list_elem_of_fmap. by exists (n, v). }
      rewrite (IH o1 h2 Hnd Hl Hin).
      by rewrite (own_DefineOwnProperty_ne _ _ _ _ _ Hd Hne).
Qed.

(** X1.  For a mapping listing each name once, [loadPrototypes] throws a
    [TypeError] exactly when the mapping supplies, for some name, a value
    different from the one an own property of the prototype holds that is
    neither configurable nor writable. *)
Theorem loadPrototypes_throws_iff (M : Model) (m : mapping) (warn : bool) :
  NoDup (Object_keys m) →
  outcome (loadPrototypes m warn) M = Throw_TypeError ↔
  ∃ n v p, (n, v) ∈ m ∧ own (prototype M) !! n = Some p ∧
           frozen p = true ∧ p_value p ≠ v.
Proof.
  intros Hnd. rewrite <- (prototypes_loop_throws m (prototype M) Hnd).
  unfold outcome, run. rewrite loadPrototypes_run.
  by destruct (prototypes_loop (prototype M) m) as [[r o] hits].
Qed.


(** ** [loadGetters] and [loadSetters]: the merged tables *)

Lemma spread_union m old :
  NoDup m.*1 → spread old m = list_to_map m ∪ old.
Proof.
  intros Hnd. apply map_eq. intros n. rewrite lookup_union.
  destruct (decide (n ∈ m.*1)) as [Hin|Hnotin].
  - apply list_elem_of_fmap in Hin as ([n' v] & -> & Hin). simpl.
    rewrite (spread_in m old n' v Hnd Hin).
    rewrite (elem_of_list_to_map_1 m n' v Hnd Hin).
    by destruct (old !! n').
  - rewrite spread_notin by done.
    rewrite (not_elem_of_list_to_map_1 m n Hnotin).
    by destruct (old !! n).
Qed.

(** X3.  For a mapping listing each name once, [loadGetters] leaves
    [Model.options.getterMethods] holding the mapping's entries together with
    the entries it held before, the mapping's callable standing under a name
    found in both, and leaves [Model.options.setterMethods] as it was;
    [loadSetters] does the same with the two option objects exchanged. *)
Theorem option_objects_are_merged (M : Model) (m : mapping) (warn : bool) :
  NoDup (Object_keys m) →
  (options_getterMethods (result (loadGetters m warn) M)
     = list_to_map m ∪ options_getterMethods M ∧
   options_setterMethods (result (loadGetters m warn) M) = options_setterMethods M) ∧
  (options_setterMethods (result (loadSetters m warn) M)
     = list_to_map m ∪ options_setterMethods M ∧
   options_getterMethods (result (loadSetters m warn) M) = options_getterMethods M).
Proof.
  intros Hnd. unfold result, run. rewrite loadGetters_run, loadSetters_run. simpl.
  by rewrite !spread_union.
Qed.

(** X4.  [loadGetters] tests every name against the getters table as it is
    before the call, so with [warn = true] it writes, in the order of the
    mapping, one override warning for each name that table already has (own
    or inherited) and none for the others; [loadSetters] does the same with
    the setters table. *)
Theorem table_loaders_warn_on_present (M : Model) (m : mapping) :
  warnings (loadGetters m true) M
    = overrideWarning "getterMethods" <$> present_in (_customGetters M) (Object_keys m) ∧
  warnings (loadSetters m true) M
    = overrideWarning "setterMethods" <$> present_in (_customSetters M) (Object_keys m) ∧
  (∀ n, n ∈ Object_keys m →
     overrideWarning "getterMethods" n ∈ warnings (loadGetters m true) M
     ↔ HasProperty (_customGetters M) n = true) ∧
  (∀ n, n ∈ Object_keys m →
     overrideWarning "setterMethods" n ∈ warnings (loadSetters m true) M
     ↔ HasProperty (_customSetters M) n = true).
Proof.
  unfold warnings, run.
  split; [by rewrite loadGetters_run|]. split; [by rewrite loadSetters_run|].
  split.
  - intros n Hn. rewrite loadGetters_run. simpl. rewrite list_elem_of_fmap. split.
    + intros (n' & ->%overrideWarning_inj & Hin).
      by apply elem_of_present_in in Hin as [_ ?].
    + intros Hp. exists n. split; [done|]. by apply elem_of_present_in.
  - intros n Hn. rewrite loadSetters_run. simpl. rewrite list_elem_of_fmap. split.
    + intros (n' & ->%overrideWarning_inj & Hin).
      by apply elem_of_present_in in Hin as [_ ?].
    + intros Hp. exists n. split; [done|]. by apply elem_of_present_in.
Qed.

(** ** Repeating a call *)

Lemma in_keys (m : mapping) n v : (n, v) ∈ m → n ∈ m.*1.
Proof. intros Hin. apply list_elem_of_fmap. by exists (n, v). Qed.

Lemma present_in_all o ks :
  (∀ n, n ∈ ks → HasProperty o n = true) → present_in o ks = ks.
Proof.
  induction ks as [|k ks IH]; intros H; [done|].
  rewrite present_in_cons, H, IH; [done| |left].
  intros n Hn. apply H. by right.
Qed.

Lemma spread_idemp m old : NoDup m.*1 → spread (spread old m) m = spread old m.
Proof.
  intros Hnd. rewrite !spread_union by done.
  by rewrite (assoc_L (∪)), (idemp_L (∪)).
Qed.

Lemma HasProperty_Set__eq o k v : HasProperty (Set_ o k v) k = true.
Proof.
  unfold Set_. destruct (own o !! k) as [p|] eqn:Ho.
  - destruct (writable p).
    + eapply HasProperty_own. simpl. apply lookup_insert_eq.
    + by eapply HasProperty_own.
  - destruct (inherited o !! k) as [p|] eqn:Hi.
    + destruct (writable p).
      * eapply HasProperty_own. simpl. apply lookup_insert_eq.
      * apply HasProperty_inherited. by rewrite Hi.
    + eapply HasProperty_own. simpl. apply lookup_insert_eq.
Qed.

Lemma own_Set__idemp o k v :
  own (Set_ (Set_ o k v) k v) !! k = own (Set_ o k v) !! k.
Proof.
  unfold Set_ at 2 3. destruct (own o !! k) as [p|] eqn:Ho.
  - destruct (writable p) eqn:Hw.
    + unfold Set_. simpl. rewrite lookup_insert_eq. simpl. rewrite Hw. simpl.
      by rewrite !lookup_insert_eq.
    + unfold Set_. by rewrite Ho, Hw.
  - destruct (inherited o !! k) as [p|] eqn:Hi.
    + destruct (writable p) eqn:Hw.
      * unfold Set_. simpl. rewrite lookup_insert_eq. simpl.
        by rewrite !lookup_insert_eq.
      * unfold Set_. by rewrite Ho, Hi, Hw.
    + unfold Set_. simpl. rewrite lookup_insert_eq. simpl.
      by rewrite !lookup_insert_eq.
Qed.

Lemma object_eq o1 o2 :
  (∀ n, own o1 !! n = own o2 !! n) → inherited o1 = inherited o2 → o1 = o2.
Proof.
  destruct o1 as [w1 i1], o2 as [w2 i2]. simpl. intros Hw ->.
  f_equal. by apply map_eq.
Qed.

Lemma statics_after_idemp m o :
  NoDup m.*1 → statics_after (statics_after o m) m = statics_after o m.
Proof.
  intros Hnd. apply object_eq; [|by rewrite !inherited_statics_after].
  intros n. destruct (decide (n ∈ m.*1)) as [Hin|Hnotin].
  - apply list_elem_of_fmap in Hin as ([n' v] & -> & Hin). simpl.
    rewrite (own_statics_after_in m _ n' v Hnd Hin).
    rewrite (own_statics_after_in m o n' v Hnd Hin).
    rewrite <- (own_Set__idemp o n' v). apply own_Set__local.
    + by apply own_statics_after_in.
    + by rewrite inherited_statics_after, inherited_Set_.
  - by rewrite !own_statics_after_notin.
Qed.

Lemma HasProperty_statics_after m o n :
  NoDup m.*1 → n ∈ m.*1 → HasProperty (statics_after o m) n = true.
Proof.
  intros Hnd Hin. apply list_elem_of_fmap in Hin as ([n' v] & -> & Hin). simpl.
  pose proof (HasProperty_Set__eq o n' v) as H. unfold HasProperty in *.
  by rewrite (own_statics_after_in m o n' v Hnd Hin), inherited_statics_after,
    <- (inherited_Set_ o n' v).
Qed.

Lemma DefineOwnProperty_same o k p :
  own o !! k = Some p → DefineOwnProperty o k (p_value p) = Some o.
Proof.
  intros Hp. unfold DefineOwnProperty. rewrite Hp.
  destruct (configurable p || writable p).
  - rewrite with_value_same, insert_id by done. by destruct o.
  - by rewrite decide_True.
Qed.

Lemma prototypes_loop_settled m o :
  (∀ n v, (n, v) ∈ m → ∃ p, own o !! n = Some p ∧ p_value p = v) →
  prototypes_loop o m = (Normal, o, m.*1).
Proof.
  induction m as [|[k v] m IH]; intros H; simpl; [done|].
  destruct (H k v) as (p & Hp & <-); [left|].
  rewrite (HasProperty_own _ _ _ Hp), (DefineOwnProperty_same _ _ _ Hp).
  rewrite IH; [done|]. intros n w Hin. apply H. by right.
Qed.

(** X6.  Repeating a call: when a loader has completed normally on a mapping
    listing each name once, the same call once more completes normally too
    (also [loadPrototypes], which throws only for a different value), leaves
    the Model exactly as the first call left it, and with [warn = true]
    writes one override warning for every name of the mapping, in order. *)
Theorem repeated_merge_changes_nothing (r : region) (M : Model) (m : mapping)
    (warn : bool) :
  NoDup (Object_keys m) →
  outcome (merge r m warn) M = Normal →
  outcome (merge r m true) (result (merge r m warn) M) = Normal ∧
  result (merge r m true) (result (merge r m warn) M) = result (merge r m warn) M ∧
  warnings (merge r m true) (result (merge r m warn) M)
    = overrideWarning (location r) <$> Object_keys m.
Proof.
  intros Hnd. unfold outcome, result, warnings, run. destruct r; simpl.
  - rewrite !loadGetters_run. simpl. intros _.
    rewrite spread_idemp by done. split; [done|]. split; [done|].
    rewrite present_in_all; [done|]. intros n Hn.
    apply list_elem_of_fmap in Hn as ([n' v] & -> & Hin).
    eapply HasProperty_own. simpl. by rewrite lookup_fmap, (spread_in m _ n' v).
  - rewrite !loadSetters_run. simpl. intros _.
    rewrite spread_idemp by done. split; [done|]. split; [done|].
    rewrite present_in_all; [done|]. intros n Hn.
    apply list_elem_of_fmap in Hn as ([n' v] & -> & Hin).
    eapply HasProperty_own. simpl. by rewrite lookup_fmap, (spread_in m _ n' v).
  - rewrite loadPrototypes_run.
    destruct (prototypes_loop (prototype M) m) as [[r1 o1] h1] eqn:Hl. simpl.
    intros ->. rewrite loadPrototypes_run. simpl.
    rewrite (prototypes_loop_settled m o1). { done. }
    intros n v Hin.
    rewrite (prototypes_loop_result m _ _ _ n v Hnd Hl Hin).
    eexists. split; [done|]. by destruct (own (prototype M) !! n).
  - rewrite !loadStatics_run. simpl. intros _.
    rewrite statics_after_idemp by done. split; [done|]. split; [done|].
    rewrite statics_conflicts_NoDup by done.
    rewrite present_in_all; [done|]. intros n Hn.
    by apply HasProperty_statics_after.
Qed.

(** ** The order of the keys *)

Lemma prototypes_loop_normal_ext m o o' hits :
  NoDup m.*1 →
  prototypes_loop o m = (Normal, o', hits) →
  ∀ n, own o' !! n
       = match (list_to_map m : gmap string value) !! n with
         | Some v => Some (match own o !! n with
                           | None => defined v
                           | Some p => with_value p v
                           end)
         | None => own o !! n
         end.
Proof.
  intros Hnd Hl n. destruct (decide (n ∈ m.*1)) as [Hin|Hnotin].
  - apply list_elem_of_fmap in Hin as ([n' v] & -> & Hin). simpl.
    rewrite (elem_of_list_to_map_1 m n' v Hnd Hin).
    by eapply prototypes_loop_result.
  - rewrite (not_elem_of_list_to_map_1 m n Hnotin).
    by eapply prototypes_loop_notin.
Qed.

(** X7.  The order in which a mapping lists its names does not matter to
    what a loader leaves: for two mappings with the same entries, each name
    once, every loader completes the same way on both, and when it completes
    normally it leaves the same Model. *)
Theorem key_order_irrelevant (r : region) (M : Model) (m1 m2 : mapping) (warn : bool) :
  NoDup (Object_keys m1) → m1 ≡ₚ m2 →
  outcome (merge r m1 warn) M = outcome (merge r m2 warn) M ∧
  (outcome (merge r m1 warn) M = Normal →
   result (merge r m1 warn) M = result (merge r m2 warn) M).
Proof.
  intros Hnd1 Hperm.
  assert (NoDup (Object_keys m2)) as Hnd2.
  { unfold Object_keys. by rewrite <- Hperm. }
  assert ((list_to_map m1 : gmap string value) = list_to_map m2) as Hmap.
  { by apply list_to_map_proper. }
  unfold outcome, result, run. destruct r; simpl.
  - rewrite !loadGetters_run. simpl. by rewrite !spread_union, Hmap.
  - rewrite !loadSetters_run. simpl. by rewrite !spread_union, Hmap.
  - rewrite !loadPrototypes_run.
    pose proof (prototypes_loop_throws m1 (prototype M) Hnd1) as T1.
    pose proof (prototypes_loop_throws m2 (prototype M) Hnd2) as T2.
    destruct (prototypes_loop (prototype M) m1) as [[r1 o1] h1] eqn:Hl1.
    destruct (prototypes_loop (prototype M) m2) as [[r2 o2] h2] eqn:Hl2.
    simpl in *.
    assert (r1 = r2) as <-.
    { destruct r1, r2; try done.
      - exfalso. destruct T2 as [(n & v & p & Hin & H) _]; [done|].
        destruct T1 as [_ T1]. discriminate T1. exists n, v, p.
        by rewrite Hperm.
      - exfalso. destruct T1 as [(n & v & p & Hin & H) _]; [done|].
        destruct T2 as [_ T2]. discriminate T2. exists n, v, p.
        by rewrite <- Hperm. }
    split; [done|]. intros ->. f_equal. apply object_eq.
    + intros n. rewrite (prototypes_loop_normal_ext m1 _ _ _ Hnd1 Hl1 n).
      rewrite (prototypes_loop_normal_ext m2 _ _ _ Hnd2 Hl2 n). by rewrite Hmap.
    + rewrite (prototypes_loop_inherited _ _ _ _ _ Hl1).
      by rewrite (prototypes_loop_inherited _ _ _ _ _ Hl2).
  - rewrite !loadStatics_run. simpl. split; [done|]. intros _. f_equal.
    apply object_eq; [|by rewrite !inherited_statics_after].
    intros n. destruct (decide (n ∈ m1.*1)) as [Hin|Hnotin].
    + apply list_elem_of_fmap in Hin as ([n' v] & -> & Hin). simpl.
      rewrite (own_statics_after_in m1 _ n' v Hnd1 Hin).
      rewrite (own_statics_after_in m2 _ n' v Hnd2); [done|]. by rewrite <- Hperm.
    + rewrite !own_statics_after_notin; [done| |done].
      unfold Object_keys in *. by rewrite <- Hperm.
Qed.

(** ** Reading a warning back *)

(** X9.  For the four location tags the loaders use, the warning message
    tells the region and the method name: two messages are equal only when
    both the region and the name are. *)
Theorem overrideWarning_tells_region_and_name (r1 r2 : region) (n1 n2 : string) :
  overrideWarning (location r1) n1 = overrideWarning (location r2) n2 →
  r1 = r2 ∧ n1 = n2.
Proof.
  intros H. destruct r1, r2;
    first [ split; [reflexivity | exact (overrideWarning_inj _ _ _ H)]
          | exfalso; vm_compute in H; discriminate H ].
Qed.

(** * The example getter and the models exporter *)

(** X10.  [needsRefresh] answers true exactly when [updated_at] has a time
    value (a valid date, or [null] counting as the epoch) and at least thirty
    days, 2592000000 milliseconds, have passed since then, the boundary
    included; with a missing or invalid [updated_at] it answers false at
    every time.  So once it answers true it answers true at every later
    time. *)
Theorem needsRefresh_after_thirty_days (now : Z) (u : updated_at) :
  (needsRefresh now u = true
   ↔ ∃ t, ToNumber u = Some t ∧ (t + 2592000000 ≤ now)%Z) ∧
  (∀ later, (now ≤ later)%Z →
     needsRefresh now u = true → needsRefresh later u = true).
Proof.
  unfold needsRefresh, thirtyDays. destruct (ToNumber u) as [t|]; split.
  - rewrite Z.geb_le. split.
    + intros H. exists t. split; [done|lia].
    + intros (t' & [= <-] & H). lia.
  - intros later Hle. rewrite !Z.geb_le. lia.
  - split; [done|]. by intros (t & [=] & _).
  - done.
Qed.
(** ** Files and directories *)

Lemma string_take_drop n s : string_take n s +:+ string_drop n s = s.
Proof.
  revert s. induction n as [|n IH]; intros [|a s]; try done.
  change (String a (string_take n s +:+ string_drop n s) = String a s).
  by rewrite IH.
Qed.

Lemma string_length_app s1 s2 :
  String.length (s1 +:+ s2) = String.length s1 + String.length s2.
Proof. induction s1 as [|a s1 IH]; simpl; [done|]. by rewrite IH. Qed.

Lemma string_drop_app s1 s2 : string_drop (String.length s1) (s1 +:+ s2) = s2.
Proof. induction s1 as [|a s1 IH]; simpl; [by destruct s2|done]. Qed.

Lemma slice_last_js file :
  slice_last 3 file = ".js" ↔ ∃ stem, file = stem +:+ ".js".
Proof.
  unfold slice_last. split.
  - intros H. exists (string_take (String.length file - 3) file).
    rewrite <- H. by rewrite string_take_drop.
  - intros (stem & ->). rewrite string_length_app. simpl.
    replace (String.length stem + 3 - 3) with (String.length stem) by lia.
    apply string_drop_app.
Qed.

(** X11.  For a directory entry the exporter computes the path of the entry
    itself exactly when the entry's name ends in [.js]; for every other name,
    also one of fewer than three characters, it computes the path of
    [index.js] inside the entry. *)
Theorem importPath_file_or_directory (__dirname file : string) :
  (isDirectory file = false ↔ ∃ stem, file = stem +:+ ".js") ∧
  (importPath __dirname file = [__dirname; file] ↔ ∃ stem, file = stem +:+ ".js") ∧
  (importPath __dirname file = [__dirname; file; "index.js"]
   ↔ ¬ ∃ stem, file = stem +:+ ".js") ∧
  (String.length file < 3 → importPath __dirname file = [__dirname; file; "index.js"]).
Proof.
  assert (isDirectory file = false ↔ ∃ stem, file = stem +:+ ".js") as Hdir.
  { unfold isDirectory. rewrite negb_false_iff, String.eqb_eq. apply slice_last_js. }
  split; [done|]. unfold importPath. split; [|split].
  - rewrite <- Hdir. by destruct (isDirectory file).
  - rewrite <- Hdir. destruct (isDirectory file); split; done.
  - intros Hlen. destruct (isDirectory file); [done|].
    destruct (proj1 Hdir eq_refl) as (stem & ->).
    rewrite string_length_app in Hlen. simpl in Hlen. lia.
Qed.

(** ** The example model *)

Lemma assignable_Set_ o k v : assignable o k = true → assignable (Set_ o k v) k = true.
Proof.
  intros Ha. destruct (own_Set__eq o k v Ha) as (p & Hp & _).
  unfold assignable in *. rewrite Hp.
  unfold Set_ in Hp. destruct (own o !! k) as [p0|] eqn:Ho.
  - rewrite Ha in Hp. simpl in Hp. rewrite lookup_insert_eq in Hp.
    injection Hp as <-. done.
  - destruct (inherited o !! k) as [p0|]; [rewrite Ha in Hp|];
      simpl in Hp; rewrite lookup_insert_eq in Hp; by injection Hp as <-.
Qed.

(** X13.  The example module loads the external methods last, after it has
    assigned [associate]: so when the bundle's statics (each name once) hold
    an [associate] and the instance-methods merge completes normally, the
    override warning for the static [associate] is written, and where
    [associate] could be assigned the Model ends with the bundle's callable,
    not the module's. *)
Theorem load_last_warns_about_associate (M : Model) (ms : methods) (f v : value) :
  NoDup (Object_keys (unpacked ms Statics)) →
  ("associate", v) ∈ unpacked ms Statics →
  outcome (loadPrototypes (unpacked ms InstanceMethods) true) M = Normal →
  outcome (GoogleLocation_module ms f) M = Normal ∧
  overrideWarning "static" "associate" ∈ warnings (GoogleLocation_module ms f) M ∧
  (assignable (members M) "associate" = true →
   Get (members (result (GoogleLocation_module ms f) M)) "associate" = Some v).
Proof.
  intros Hnd Hin. unfold outcome, warnings, result, run, GoogleLocation_module,
    loadExternalMethods, unpacked in *.
  set (st := default [] (staticMethods ms)) in *.
  set (p := default [] (prototypeMethods ms)) in *.
  unfold seq, modify. simpl.
  rewrite loadGetters_run, loadSetters_run, !loadPrototypes_run. simpl.
  destruct (prototypes_loop (prototype M) p) as [[r o] hits] eqn:Hl. simpl.
  intros ->. rewrite loadStatics_run. simpl. split; [done|]. split.
  - rewrite !elem_of_app. right. unfold said. apply list_elem_of_fmap.
    exists "associate". split; [done|].
    rewrite statics_conflicts_NoDup by done. apply elem_of_present_in.
    split; [by eapply in_keys|]. apply HasProperty_Set__eq.
  - intros Ha. apply (assignable_Set_ _ _ f) in Ha.
    destruct (own_Set__eq _ "associate" v Ha) as (q & Hq & <-).
    apply Get_own. by rewrite (own_statics_after_in st _ "associate" (p_value q)).
Qed.

Lemma load_last_warns_about_associate_witness :
  NoDup (Object_keys (unpacked (mkMethods (Some [("associate", Fn 2)]) None None None)
                        Statics)) ∧
  outcome (GoogleLocation_module (mkMethods (Some [("associate", Fn 2)]) None None None)
             (Fn 1)) tested_Model = Normal ∧
  warnings (GoogleLocation_module (mkMethods (Some [("associate", Fn 2)]) None None None)
              (Fn 1)) tested_Model
  = [overrideWarning "static" "associate"].
Proof.
  split; [by_compute|].
  destruct (load_last_warns_about_associate tested_Model
              (mkMethods (Some [("associate", Fn 2)]) None None None) (Fn 1) (Fn 2)
              ltac:(by_compute) ltac:(by_compute) ltac:(reflexivity)) as (H & _).
  split; [exact H|reflexivity].
Defined.

(** ** The further properties on sample Models *)

Lemma loadPrototypes_throws_iff_witness :
  NoDup (Object_keys [("c", Fn 3); ("b", Fn 4)]) ∧
  outcome (loadPrototypes [("c", Fn 3); ("b", Fn 4)] true)
    (result (loadPrototypes [("a", Fn 1); ("b", Fn 2)] true) bare_Model)
  = Throw_TypeError.
Proof.
  split; [by_compute|].
  apply (loadPrototypes_throws_iff
           (result (loadPrototypes [("a", Fn 1); ("b", Fn 2)] true) bare_Model)
           [("c", Fn 3); ("b", Fn 4)] true ltac:(by_compute)).
  exists "b", (Fn 4), (defined (Fn 2)).
  split; [by_compute|]. split; [reflexivity|]. split; [reflexivity|discriminate].
Defined.


Lemma option_objects_are_merged_witness :
  NoDup (Object_keys [("getterName", Str "methodDef"); ("otherName", Str "otherDef")]) ∧
  options_getterMethods
    (result (loadGetters [("getterName", Str "methodDef"); ("otherName", Str "otherDef")]
               true) tested_Model)
  = list_to_map [("getterName", Str "methodDef"); ("otherName", Str "otherDef")]
    ∪ options_getterMethods tested_Model.
Proof.
  split; [by_compute|].
  exact (proj1 (proj1 (option_objects_are_merged tested_Model
                         [("getterName", Str "methodDef"); ("otherName", Str "otherDef")]
                         true ltac:(by_compute)))).
Defined.

Lemma repeated_merge_changes_nothing_witness :
  NoDup (Object_keys [("a", Fn 1); ("toString", Fn 2)]) ∧
  outcome (merge InstanceMethods [("a", Fn 1); ("toString", Fn 2)] true) bare_Model
    = Normal ∧
  outcome (merge InstanceMethods [("a", Fn 1); ("toString", Fn 2)] true)
    (result (merge InstanceMethods [("a", Fn 1); ("toString", Fn 2)] true) bare_Model)
    = Normal ∧
  warnings (merge InstanceMethods [("a", Fn 1); ("toString", Fn 2)] true)
    (result (merge InstanceMethods [("a", Fn 1); ("toString", Fn 2)] true) bare_Model)
    = [overrideWarning "prototype" "a"; overrideWarning "prototype" "toString"].
Proof.
  split; [by_compute|]. split; [reflexivity|].
  destruct (repeated_merge_changes_nothing InstanceMethods bare_Model
              [("a", Fn 1); ("toString", Fn 2)] true
              ltac:(by_compute) ltac:(reflexivity)) as (H1 & _ & H3).
  split; [exact H1|exact H3].
Defined.

Lemma key_order_irrelevant_witness :
  NoDup (Object_keys [("a", Fn 1); ("b", Fn 2)]) ∧
  [("a", Fn 1); ("b", Fn 2)] ≡ₚ [("b", Fn 2); ("a", Fn 1)] ∧
  result (merge Statics [("a", Fn 1); ("b", Fn 2)] true) class_Model
  = result (merge Statics [("b", Fn 2); ("a", Fn 1)] true) class_Model.
Proof.
  split; [by_compute|]. split; [apply perm_swap|].
  exact (proj2 (key_order_irrelevant Statics class_Model
                  [("a", Fn 1); ("b", Fn 2)] [("b", Fn 2); ("a", Fn 1)] true
                  ltac:(by_compute) (perm_swap _ _ _))
               ltac:(reflexivity)).
Defined.

Lemma overrideWarning_tells_region_and_name_witness :
  overrideWarning (location Statics) "findById"
    = overrideWarning (location Statics) "findById" ∧
  Statics = Statics ∧ "findById" = "findById".
Proof.
  split; [reflexivity|].
  exact (overrideWarning_tells_region_and_name Statics Statics "findById" "findById"
           eq_refl).
Defined.
